(** * Left-leaning red-black tree (LeftLeaningRedBlack.cpp): model and properties

    The tree of [LLTB_t] nodes is owned hierarchically (no sharing, no parent
    pointers), so a pointer to a node is modelled by the subtree it points to
    and [nullptr] by the empty tree.  Keys are [uint32_t]; the code only
    compares them, so they are modelled as [N].  Addresses and the heap
    appear only where [Free] is studied: the tree operations never release a
    node that the tree still reaches. *)

From Stdlib Require Import NArith List Bool Lia Arith Sorted.
Import ListNotations.

(** ** Data model (VoidRef.h, LeftLeaningRedBlack.h) *)

(** [struct VoidRef_t { uint32_t Key; }] *)
Record VoidRef_t : Type := mkRef { Key : N }.

(** [struct LLTB_t { VoidRef_t Ref; bool IsRed; LLTB_t* pLeft; LLTB_t* pRight; }]
    A pointer is either [nullptr] or the node it points to. *)
Inductive LLTB_t : Type :=
| nullptr : LLTB_t
| Node (IsRed_ : bool) (pLeft_ : LLTB_t) (Ref_ : VoidRef_t) (pRight_ : LLTB_t) : LLTB_t.

Definition pLeft (p : LLTB_t) : LLTB_t :=
  match p with nullptr => nullptr | Node _ l _ _ => l end.

Definition pRight (p : LLTB_t) : LLTB_t :=
  match p with nullptr => nullptr | Node _ _ _ r => r end.

Definition is_null (p : LLTB_t) : bool :=
  match p with nullptr => true | Node _ _ _ _ => false end.

(** [NewNode()] followed by [pNode->Ref = ref] in [InsertRec]: a red leaf. *)
Definition NewNode (ref : VoidRef_t) : LLTB_t := Node true nullptr ref nullptr.

(** ** Colour test, rotations, colour flip *)

(** [IsRed]: a null link is black. *)
Definition IsRed (pNode : LLTB_t) : bool :=
  match pNode with nullptr => false | Node c _ _ _ => c end.

(** [RotateLeft]: every call site is guarded by [IsRed (pRight pNode)], so the
    right child is never null there; the other shapes are left untouched. *)
Definition RotateLeft (pNode : LLTB_t) : LLTB_t :=
  match pNode with
  | Node c l x (Node _ rl y rr) => Node c (Node true l x rl) y rr
  | _ => pNode
  end.

(** [RotateRight]: every call site is guarded by [IsRed (pLeft pNode)]. *)
Definition RotateRight (pNode : LLTB_t) : LLTB_t :=
  match pNode with
  | Node c (Node _ ll x lr) y r => Node c ll x (Node true lr y r)
  | _ => pNode
  end.

Definition toggle (p : LLTB_t) : LLTB_t :=
  match p with nullptr => nullptr | Node c l x r => Node (negb c) l x r end.

(** [ColorFlip]: toggles the node and each non-null child. *)
Definition ColorFlip (pNode : LLTB_t) : LLTB_t :=
  match pNode with
  | nullptr => nullptr
  | Node c l x r => Node (negb c) (toggle l) x (toggle r)
  end.

(** ** Insertion *)

(** [InsertRec] (2-3 mode: [USE_234_TREE] is not defined, so the colour flip
    is the last of the three tests made on the way back). *)
Fixpoint InsertRec (pNode : LLTB_t) (ref : VoidRef_t) : LLTB_t :=
  match pNode with
  | nullptr => NewNode ref
  | Node c l x r =>
      let pNode :=
        if (Key ref =? Key x)%N then Node c l ref r
        else if (Key ref <? Key x)%N then Node c (InsertRec l ref) x r
        else Node c l x (InsertRec r ref) in
      let pNode :=
        if IsRed (pRight pNode) && negb (IsRed (pLeft pNode))
        then RotateLeft pNode else pNode in
      let pNode :=
        if IsRed (pLeft pNode) && IsRed (pLeft (pLeft pNode))
        then RotateRight pNode else pNode in
      let pNode :=
        if IsRed (pLeft pNode) && IsRed (pRight pNode)
        then ColorFlip pNode else pNode in
      pNode
  end.

(** The number of calls to [NewNode] made by [InsertRec]: one when the
    descent ends on a null link, none when it ends on an equal key. *)
Fixpoint InsertRec_news (pNode : LLTB_t) (ref : VoidRef_t) : nat :=
  match pNode with
  | nullptr => 1
  | Node _ l x r =>
      if (Key ref =? Key x)%N then 0
      else if (Key ref <? Key x)%N then InsertRec_news l ref
      else InsertRec_news r ref
  end.

(** [m_pRoot->IsRed = false] *)
Definition set_black (p : LLTB_t) : LLTB_t :=
  match p with nullptr => nullptr | Node _ l x r => Node false l x r end.

(** [FindParent]: reads the keys of both children without a null test; [None]
    stands for the dereference of a null pointer.  The [||] of the source is
    short-circuiting, so the right child is only read when the left one does
    not match. *)
Fixpoint FindParent (tempPtr : LLTB_t) (ref : VoidRef_t) : option LLTB_t :=
  match tempPtr with
  | nullptr => None
  | Node _ l x r =>
      match l with
      | nullptr => None
      | Node _ _ lx _ =>
          if (Key lx =? Key ref)%N then Some tempPtr
          else match r with
               | nullptr => None
               | Node _ _ rx _ =>
                   if (Key rx =? Key ref)%N then Some tempPtr
                   else if (Key ref <? Key x)%N then FindParent l ref
                   else FindParent r ref
               end
      end
  end.

(** What [Insert] prints: either the root alone, or the parent found by
    [FindParent] and the child taken for the newest node. *)
Inductive report : Type :=
| NoParent (newest : N) (red : bool)
| Parent (parent : N) (parent_red : bool) (newest : N) (red : bool).

(** The diagnostic part of [Insert] (lines 270-293); [None] is a null
    dereference. *)
Definition Insert_report (root : LLTB_t) (ref : VoidRef_t) : option report :=
  match root with
  | nullptr => None
  | Node c _ x _ =>
      if (Key x =? Key ref)%N then Some (NoParent (Key x) c)
      else
        match FindParent root ref with
        | None => None
        | Some parent =>
            match parent with
            | nullptr => None
            | Node pc pl px pr =>
                match pl with
                | nullptr => None
                | Node lc _ lx _ =>
                    if (Key lx =? Key ref)%N
                    then Some (Parent (Key px) pc (Key lx) lc)
                    else match pr with
                         | nullptr => None
                         | Node rc _ rx _ => Some (Parent (Key px) pc (Key rx) rc)
                         end
                end
            end
        end
  end.

(** [Insert]: the new root and the returned [bool], or [None] when the
    diagnostic code dereferences a null pointer. *)
Definition Insert (m_pRoot : LLTB_t) (ref : VoidRef_t) : option (LLTB_t * bool) :=
  let m_pRoot := set_black (InsertRec m_pRoot ref) in
  match Insert_report m_pRoot ref with
  | None => None
  | Some _ => Some (m_pRoot, true)
  end.

(** ** Deletion *)

Definition MoveRedLeft (pNode : LLTB_t) : LLTB_t :=
  let pNode := ColorFlip pNode in
  if negb (is_null (pRight pNode)) && IsRed (pLeft (pRight pNode)) then
    let pNode :=
      match pNode with
      | nullptr => nullptr
      | Node c l x r => Node c l x (RotateRight r)
      end in
    let pNode := RotateLeft pNode in
    ColorFlip pNode
  else pNode.

Definition MoveRedRight (pNode : LLTB_t) : LLTB_t :=
  let pNode := ColorFlip pNode in
  if negb (is_null (pLeft pNode)) && IsRed (pLeft (pLeft pNode)) then
    let pNode := RotateRight pNode in
    ColorFlip pNode
  else pNode.

(** [FindMin]: the loop follows [pLeft] until it is null. *)
Fixpoint FindMin (pNode : LLTB_t) : LLTB_t :=
  match pNode with
  | nullptr => nullptr
  | Node _ l _ _ => if is_null l then pNode else FindMin l
  end.

(** [pNode->Ref]; only read on non-null nodes. *)
Definition Ref (p : LLTB_t) : VoidRef_t :=
  match p with nullptr => mkRef 0 | Node _ _ x _ => x end.

Definition FixUp (pNode : LLTB_t) : LLTB_t :=
  let pNode := if IsRed (pRight pNode) then RotateLeft pNode else pNode in
  let pNode :=
    if IsRed (pLeft pNode) && IsRed (pLeft (pLeft pNode))
    then RotateRight pNode else pNode in
  if IsRed (pLeft pNode) && IsRed (pRight pNode)
  then ColorFlip pNode else pNode.

Definition set_pLeft (p l : LLTB_t) : LLTB_t :=
  match p with nullptr => nullptr | Node c _ x r => Node c l x r end.

Definition set_pRight (p r : LLTB_t) : LLTB_t :=
  match p with nullptr => nullptr | Node c l x _ => Node c l x r end.

Definition set_Ref (p : LLTB_t) (x : VoidRef_t) : LLTB_t :=
  match p with nullptr => nullptr | Node c l _ r => Node c l x r end.

Fixpoint size (t : LLTB_t) : nat :=
  match t with nullptr => 0 | Node _ l _ r => S (size l + size r) end.

(** [DeleteMin].  The recursion is on the left child of a node that
    [MoveRedLeft] may have rebuilt, so it is not structural: [fuel] bounds the
    depth, and [size] of the argument is always enough (see
    [DeleteMin_fuel_enough]).  [Free] releases nothing that the tree still
    reaches, so the removed node simply disappears from the model. *)
Fixpoint DeleteMin_fuel (fuel : nat) (pNode : LLTB_t) : LLTB_t :=
  match fuel with
  | O => pNode
  | S fuel =>
      if is_null (pLeft pNode) then nullptr
      else
        let pNode :=
          if negb (IsRed (pLeft pNode)) && negb (IsRed (pLeft (pLeft pNode)))
          then MoveRedLeft pNode else pNode in
        let pNode := set_pLeft pNode (DeleteMin_fuel fuel (pLeft pNode)) in
        FixUp pNode
  end.

Definition DeleteMin (pNode : LLTB_t) : LLTB_t :=
  DeleteMin_fuel (size pNode) pNode.

(** [DeleteRec], same treatment of the recursion. *)
Fixpoint DeleteRec_fuel (fuel : nat) (pNode : LLTB_t) (key : N) : LLTB_t :=
  match fuel with
  | O => pNode
  | S fuel =>
      if (key <? Key (Ref pNode))%N then
        if negb (is_null (pLeft pNode)) then
          let pNode :=
            if negb (IsRed (pLeft pNode)) && negb (IsRed (pLeft (pLeft pNode)))
            then MoveRedLeft pNode else pNode in
          let pNode := set_pLeft pNode (DeleteRec_fuel fuel (pLeft pNode) key) in
          FixUp pNode
        else FixUp pNode
      else
        let pNode := if IsRed (pLeft pNode) then RotateRight pNode else pNode in
        if (key =? Key (Ref pNode))%N && is_null (pRight pNode) then nullptr
        else if negb (is_null (pRight pNode)) then
          let pNode :=
            if negb (IsRed (pRight pNode)) && negb (IsRed (pLeft (pRight pNode)))
            then MoveRedRight pNode else pNode in
          let pNode :=
            if (key =? Key (Ref pNode))%N then
              let pNode := set_Ref pNode (Ref (FindMin (pRight pNode))) in
              set_pRight pNode (DeleteMin (pRight pNode))
            else set_pRight pNode (DeleteRec_fuel fuel (pRight pNode) key) in
          FixUp pNode
        else FixUp pNode
  end.

Definition DeleteRec (pNode : LLTB_t) (key : N) : LLTB_t :=
  DeleteRec_fuel (size pNode) pNode key.

(** [Delete] returns [void]; only the new root is observable. *)
Definition Delete (m_pRoot : LLTB_t) (key : N) : LLTB_t :=
  if negb (is_null m_pRoot) then
    let m_pRoot := DeleteRec m_pRoot key in
    if negb (is_null m_pRoot) then set_black m_pRoot else m_pRoot
  else m_pRoot.

(** ** Look-up and traversal *)

(** [LookUp]: the loop descends until the pointer is null and then returns
    [nullptr]; there is no test for equality.  The result type stands for the
    returned [void*]: [None] is [nullptr]. *)
Fixpoint LookUp_loop (pNode : LLTB_t) (key : N) : option VoidRef_t :=
  match pNode with
  | nullptr => None
  | Node _ l x r =>
      if (key <? Key x)%N then LookUp_loop l key else LookUp_loop r key
  end.

Definition LookUp (m_pRoot : LLTB_t) (key : N) : option VoidRef_t :=
  LookUp_loop m_pRoot key.

(** What [TraverseRec] writes to [cout]. *)
Inductive output : Type :=
| Warning                        (* "Right child should not be greater ..." *)
| Visit (red : bool) (key : N).  (* "(Red) k" or "(Black) k" *)

(** [TraverseRec]; returns the output and the final value of the reference
    parameter [prev].  [Traverse] and the recursive calls only pass non-null
    nodes. *)
Fixpoint TraverseRec (pNode : LLTB_t) (prev : N) : list output * N :=
  match pNode with
  | nullptr => ([], prev)
  | Node c l x r =>
      let '(out1, prev) :=
        if negb (is_null l) then TraverseRec l prev else ([], prev) in
      let warn := if negb (prev <? Key x)%N then [Warning] else [] in
      let prev := Key x in
      let '(out2, prev) :=
        if negb (is_null r) then TraverseRec r prev else ([], prev) in
      (out1 ++ warn ++ [Visit c (Key x)] ++ out2, prev)
  end.

Definition Traverse (m_pRoot : LLTB_t) : list output :=
  if negb (is_null m_pRoot) then fst (TraverseRec m_pRoot 0%N) else [].

Definition emitted_keys (out : list output) : list N :=
  flat_map (fun o => match o with Warning => [] | Visit _ k => [k] end) out.

(** ** The structural invariants of the specification *)

Local Open Scope N_scope.

(** The keys of a tree, left to right. *)
Fixpoint inorder (t : LLTB_t) : list N :=
  match t with
  | nullptr => []
  | Node _ l x r => inorder l ++ Key x :: inorder r
  end.

(** I1: keys on the left are smaller, keys on the right are larger, at every
    node (so keys are unique). *)
Fixpoint BST (t : LLTB_t) : Prop :=
  match t with
  | nullptr => True
  | Node _ l x r =>
      Forall (fun k => k < Key x) (inorder l) /\
      Forall (fun k => Key x < k) (inorder r) /\ BST l /\ BST r
  end.

(** I2: the root, when there is one, is black. *)
Definition black_root (t : LLTB_t) : Prop := IsRed t = false.

(** I3: at every node a red right child comes with a red left child. *)
Fixpoint left_leaning (t : LLTB_t) : Prop :=
  match t with
  | nullptr => True
  | Node _ l _ r =>
      (IsRed r = true -> IsRed l = true) /\ left_leaning l /\ left_leaning r
  end.

(** I4: no node has a red left child whose own left child is red. *)
Fixpoint no_double_red_left (t : LLTB_t) : Prop :=
  match t with
  | nullptr => True
  | Node _ l _ r =>
      ~ (IsRed l = true /\ IsRed (pLeft l) = true) /\
      no_double_red_left l /\ no_double_red_left r
  end.

(** The number of black nodes met on each path from the root to a null link. *)
Fixpoint path_blacks (t : LLTB_t) : list nat :=
  match t with
  | nullptr => [0%nat]
  | Node c l _ r =>
      map (fun n => if c then n else S n) (path_blacks l ++ path_blacks r)
  end.

(** I5: every path from the root to a null link has the same number of
    black links. *)
Definition black_balanced (t : LLTB_t) : Prop :=
  exists n, Forall (fun m => m = n) (path_blacks t).

Definition Invariants (t : LLTB_t) : Prop :=
  BST t /\ black_root t /\ left_leaning t /\ no_double_red_left t /\
  black_balanced t.

(** ** The shape the code maintains: a 2-3 tree

    [llrb t n]: [t] has black height [n], no right child is red, and no red
    node has a red child.  This is stronger than I3-I5 and is what insertion
    and deletion really preserve. *)
Fixpoint llrb (t : LLTB_t) (n : nat) {struct t} : Prop :=
  match t with
  | nullptr => n = 0%nat
  | Node c l _ r =>
      if c then IsRed l = false /\ IsRed r = false /\ llrb l n /\ llrb r n
      else match n with
           | O => False
           | S m => IsRed r = false /\ llrb l m /\ llrb r m
           end
  end.

Definition sorted (l : list N) : Prop := StronglySorted N.lt l.

(** A reachable container state: strictly sorted keys and a black-rooted
    2-3 shape. *)
Definition Valid (t : LLTB_t) : Prop :=
  sorted (inorder t) /\ IsRed t = false /\ exists n, llrb t n.

(** ** Notions used in the proofs *)

(** The three tests at the end of an [InsertRec] frame, as one function. *)
Definition InsertRec_fix (pNode : LLTB_t) : LLTB_t :=
  let pNode :=
    if IsRed (pRight pNode) && negb (IsRed (pLeft pNode))
    then RotateLeft pNode else pNode in
  let pNode :=
    if IsRed (pLeft pNode) && IsRed (pLeft (pLeft pNode))
    then RotateRight pNode else pNode in
  if IsRed (pLeft pNode) && IsRed (pRight pNode)
  then ColorFlip pNode else pNode.

(** A red node whose left child may be red as well: what [InsertRec] can
    return for a red node, to be repaired by the parent's frame. *)
Definition almost (o : LLTB_t) (n : nat) : Prop :=
  match o with
  | Node true l _ r => llrb l n /\ llrb r n /\ IsRed r = false
  | _ => False
  end.

(** Insertion of a key in a sorted list, an equal key being replaced. *)
Fixpoint ins_list (k : N) (l : list N) : list N :=
  match l with
  | [] => [k]
  | y :: l' =>
      if k <? y then k :: l
      else if k =? y then k :: l'
      else y :: ins_list k l'
  end.

(** Removal of a key from a list. *)
Definition del_list (k : N) (l : list N) : list N :=
  filter (fun y => negb (y =? k)) l.

(** The two shapes on which the descent of a deletion arrives at a node:
    a red node, or a black node with a red left child. *)
Definition red_node (t : LLTB_t) (n : nat) : Prop :=
  IsRed t = true /\ llrb t n.

Definition black_3node (t : LLTB_t) (n : nat) : Prop :=
  IsRed t = false /\ IsRed (pLeft t) = true /\ llrb t n.

(** The third shape of the descent: after [MoveRedRight] has rotated, the
    old node is entered again, black, with a red right child; the key is
    then known not to be on its left. *)
Definition black_right_red (t : LLTB_t) (n : nat) (key : N) : Prop :=
  exists l x r m,
    t = Node false l x r /\ n = S m /\ IsRed l = false /\ llrb l m /\
    red_node r m /\ (key <? Key x) = false.

(** The shapes of the nodes on which [DeleteRec] is called below the root. *)
Definition descent_shape (key : N) (p : LLTB_t) : Prop :=
  exists n, red_node p n \/ black_3node p n \/ black_right_red p n key.

(** Two nodes that differ at most in their own colour.

    No test of [DeleteRec] reads the colour of [pNode] itself; rotations hand
    it to the new subtree root and flips toggle it.  Two nodes that differ
    only in their own colour therefore give results that differ only in the
    colour of the root.  [Delete] starts on a black root where the algorithm
    expects a red node, which this makes harmless. *)
Definition same_below (a b : LLTB_t) : Prop := set_black a = set_black b.

(** The node returned by [FindParent] can be read by the printing code. *)
Definition readable_parent (p : LLTB_t) (ref : VoidRef_t) : Prop :=
  match p with
  | Node _ (Node _ _ lx _) _ pr => Key lx = Key ref \/ pr <> nullptr
  | _ => False
  end.

(** ** The container as a state machine *)

(** The public mutating operations. *)
Inductive operation : Type :=
| OpInsert (ref : VoidRef_t)
| OpDelete (key : N).

(** One operation on the root link; [None] when the operation dereferences a
    null pointer. *)
Definition step (m_pRoot : LLTB_t) (o : operation) : option LLTB_t :=
  match o with
  | OpInsert ref =>
      match Insert m_pRoot ref with
      | Some (root, _) => Some root
      | None => None
      end
  | OpDelete key => Some (Delete m_pRoot key)
  end.

Fixpoint run (ops : list operation) (m_pRoot : LLTB_t) : option LLTB_t :=
  match ops with
  | [] => Some m_pRoot
  | o :: ops =>
      match step m_pRoot o with
      | Some root => run ops root
      | None => None
      end
  end.

(** The trees the container can hold: those obtained from the empty tree of
    the constructor by a sequence of operations. *)
Definition reachable (t : LLTB_t) : Prop :=
  exists ops, run ops nullptr = Some t.

(** The keys inserted and not subsequently deleted, for a sequence of
    operations applied to a container holding the keys [s]. *)
Fixpoint live_keys (ops : list operation) (s : list N) : list N :=
  match ops with
  | [] => s
  | OpInsert ref :: ops => live_keys ops (Key ref :: s)
  | OpDelete key :: ops => live_keys ops (remove N.eq_dec key s)
  end.

(** ** An example

    The tree built by inserting 10, 5, 20, 15 in this order. *)
Definition tree_10_5_20_15 : LLTB_t :=
  Node false (Node false nullptr (mkRef 5) nullptr) (mkRef 10)
    (Node false (Node true nullptr (mkRef 15) nullptr) (mkRef 20) nullptr).

(** The insertion of a list of keys, one after the other. *)
Definition inserts (keys : list N) : list operation :=
  map (fun k => OpInsert (mkRef k)) keys.

(** ** The fix-up of the insertion in the words of the specification *)

Module Spec.

Definition color (n : LLTB_t) : bool :=
  match n with nullptr => false | Node c _ _ _ => c end.

Definition set_color (n : LLTB_t) (c : bool) : LLTB_t :=
  match n with nullptr => nullptr | Node _ l x r => Node c l x r end.

(** is-red(link): an absent child is treated as black. *)
Definition is_red (link : LLTB_t) : bool :=
  match link with nullptr => false | Node c _ _ _ => c end.

(** rotate-left(N): let R = N.right; replace N.right with R.left; set
    R.left = N; set R.color = N.color; set N.color = red; return R. *)
Definition rotate_left (n : LLTB_t) : LLTB_t :=
  let r := pRight n in
  let n' := set_color (set_pRight n (pLeft r)) true in
  set_color (set_pLeft r n') (color n).

(** rotate-right(N): the mirror image. *)
Definition rotate_right (n : LLTB_t) : LLTB_t :=
  let l := pLeft n in
  let n' := set_color (set_pLeft n (pRight l)) true in
  set_color (set_pRight l n') (color n).

(** color-flip(N): toggle the colour of N, N.left and N.right, absent
    children being ignored. *)
Definition color_flip (n : LLTB_t) : LLTB_t :=
  let flip m := set_color m (negb (color m)) in
  flip (set_pRight (set_pLeft n (flip (pLeft n))) (flip (pRight n))).

(** Step 4a: if is-red(N.right) and not is-red(N.left), rotate left. *)
Definition step_a (n : LLTB_t) : LLTB_t :=
  if is_red (pRight n) && negb (is_red (pLeft n)) then rotate_left n else n.

(** Step 4b: if is-red(N.left) and is-red(N.left.left), rotate right. *)
Definition step_b (n : LLTB_t) : LLTB_t :=
  if is_red (pLeft n) && is_red (pLeft (pLeft n)) then rotate_right n else n.

(** Step 4c: if is-red(N.left) and is-red(N.right), flip the colours. *)
Definition step_c (n : LLTB_t) : LLTB_t :=
  if is_red (pLeft n) && is_red (pRight n) then color_flip n else n.

End Spec.

(** ** The frames of a deletion *)

(** The node of a [DeleteRec] frame after the test of line 507 (descent to
    the left). *)
Definition left_descent (pNode : LLTB_t) : LLTB_t :=
  if negb (IsRed (pLeft pNode)) && negb (IsRed (pLeft (pLeft pNode)))
  then MoveRedLeft pNode else pNode.

(** The node of a [DeleteRec] frame after the test of line 517. *)
Definition right_turn (pNode : LLTB_t) : LLTB_t :=
  if IsRed (pLeft pNode) then RotateRight pNode else pNode.

(** The node of a [DeleteRec] frame after the test of line 533: the node
    whose key is compared at line 543. *)
Definition right_descent (pNode : LLTB_t) : LLTB_t :=
  let p1 := right_turn pNode in
  if negb (IsRed (pRight p1)) && negb (IsRed (pLeft (pRight p1)))
  then MoveRedRight p1 else p1.

(** [visits key root p]: [Delete] of [key] on the root [root] calls
    [DeleteRec] on [p] (lines 484, 511 and 548). *)
Inductive visits (key : N) (root : LLTB_t) : LLTB_t -> Prop :=
| visits_root : root <> nullptr -> visits key root root
| visits_left p :
    visits key root p ->
    (key <? Key (Ref p)) = true -> pLeft p <> nullptr ->
    visits key root (pLeft (left_descent p))
| visits_right p :
    visits key root p ->
    (key <? Key (Ref p)) = false ->
    pRight (right_turn p) <> nullptr ->
    (key =? Key (Ref (right_descent p))) = false ->
    visits key root (pRight (right_descent p)).

(** The frame on [p] reaches line 544: the key is not smaller than that of
    [p], the right child is not null at line 532 and the node then bears the
    key. *)
Definition at_bearing_node (key : N) (p : LLTB_t) : Prop :=
  (key <? Key (Ref p)) = false /\
  pRight (right_turn p) <> nullptr /\
  (key =? Key (Ref (right_descent p))) = true.

(** ** What [FindParent] returns *)

(** [s] is a node of [t] (or [t] itself). *)
Fixpoint subtree (s t : LLTB_t) : Prop :=
  s = t \/
  match t with
  | nullptr => False
  | Node _ l _ r => subtree s l \/ subtree s r
  end.

(** One of the children of [p] bears the key of [ref]. *)
Definition parent_of (p : LLTB_t) (ref : VoidRef_t) : Prop :=
  (pLeft p <> nullptr /\ Key (Ref (pLeft p)) = Key ref) \/
  (pRight p <> nullptr /\ Key (Ref (pRight p)) = Key ref).

(** A wrong branch of the test [tempPtr->Ref.Key > ref.Key] at a node: the
    search is sent to one side while the key is on the other. *)
Definition mis_branch (tempPtr : LLTB_t) (ref : VoidRef_t) : Prop :=
  ((Key ref <? Key (Ref tempPtr)) = true /\
   In (Key ref) (inorder (pRight tempPtr))) \/
  ((Key ref <? Key (Ref tempPtr)) = false /\
   In (Key ref) (inorder (pLeft tempPtr))).

(** ** The heap: what [Free] releases

    Here the nodes live at addresses, so that releasing a node can be
    observed.  [None] is [nullptr]. *)

Definition address : Type := N.
Definition pointer : Type := option address.

Record LLTB_cell : Type := mkCell {
  cell_Ref : VoidRef_t;
  cell_IsRed : bool;
  cell_pLeft : pointer;
  cell_pRight : pointer
}.

(** The allocated nodes. *)
Definition heap : Type := list (address * LLTB_cell).

Fixpoint deref (h : heap) (a : address) : option LLTB_cell :=
  match h with
  | [] => None
  | (b, c) :: h' => if b =? a then Some c else deref h' a
  end.

(** [delete p]: releases the node at [p]; [delete nullptr] does nothing. *)
Definition delete_node (h : heap) (p : pointer) : heap :=
  match p with
  | None => h
  | Some a => filter (fun bc => negb (fst bc =? a)) h
  end.

(** [Free].  The recursion follows pointers in the heap: [fuel] bounds its
    depth, and the result is [None] when the fuel runs out or a pointer is
    dangling.  The local [pNode] is set to [nullptr] before [delete]. *)
Fixpoint Free (fuel : nat) (h : heap) (pNode : pointer) : option heap :=
  match fuel with
  | O => None
  | S fuel =>
      match pNode with
      | None => Some h
      | Some a =>
          match deref h a with
          | None => None
          | Some c =>
              match (match cell_pLeft c with
                     | None => Some h
                     | Some _ => Free fuel h (cell_pLeft c)
                     end) with
              | None => None
              | Some h1 =>
                  match deref h1 a with
                  | None => None
                  | Some c1 =>
                      match (match cell_pRight c1 with
                             | None => Some h1
                             | Some _ => Free fuel h1 (cell_pRight c1)
                             end) with
                      | None => None
                      | Some h2 =>
                          let pNode : pointer := None in
                          Some (delete_node h2 pNode)
                      end
                  end
              end
          end
      end
  end.

(** The container: the heap and the root link [m_pRoot]. *)
Record container : Type := mkContainer { m_heap : heap; m_pRoot : pointer }.

(** [FreeAll]: [Free(m_pRoot); m_pRoot = nullptr;] *)
Definition FreeAll (fuel : nat) (s : container) : option container :=
  match Free fuel (m_heap s) (m_pRoot s) with
  | None => None
  | Some h => Some (mkContainer h None)
  end.

(** The heap [h] holds the tree [t] at [p]. *)
Fixpoint rep (h : heap) (p : pointer) (t : LLTB_t) : Prop :=
  match t with
  | nullptr => p = None
  | Node c l x r =>
      exists a pl pr,
        p = Some a /\ deref h a = Some (mkCell x c pl pr) /\
        rep h pl l /\ rep h pr r
  end.

(** The addresses released by a post-order walk that deletes each node once:
    what the specification asks of [clear]. *)
Fixpoint post_order (fuel : nat) (h : heap) (p : pointer) : list address :=
  match fuel with
  | O => []
  | S fuel =>
      match p with
      | None => []
      | Some a =>
          match deref h a with
          | None => []
          | Some c =>
              post_order fuel h (cell_pLeft c) ++
              post_order fuel h (cell_pRight c) ++ [a]
          end
      end
  end.

(** ** The other functions of LeftLeaningRedBlack.cpp and the driver *)

(** [Max]: [(left > right) ? left : right]. *)
Definition Max (left right : N) : N :=
  if right <? left then left else right.

(** [Min]: [(left < right) ? left : right]. *)
Definition Min (left right : N) : N :=
  if left <? right then left else right.

(** [SIZE] of Source.cpp. *)
Definition SIZE : nat := 10.

(** The loop of [loadLLRBTree] on the elements it reads, in order: each is
    passed to [Insert]; [None] when an [Insert] dereferences a null pointer. *)
Fixpoint insert_each (target : list VoidRef_t) (tree : LLTB_t) : option LLTB_t :=
  match target with
  | [] => Some tree
  | ref :: target =>
      match Insert tree ref with
      | Some (tree, _) => insert_each target tree
      | None => None
      end
  end.

(** [loadLLRBTree]: [for (i = 0; i < SIZE; i++) tree.Insert(target[i])]. *)
Definition loadLLRBTree (target : list VoidRef_t) (tree : LLTB_t) : option LLTB_t :=
  insert_each (firstn SIZE target) tree.

(** What [main] makes [Traverse] print, for the array [treeArr] that
    [loadArr] has filled: the tree is loaded, the key of the 4th element is
    deleted, the tree is traversed. *)
Definition main_traversal (treeArr : list VoidRef_t) : option (list output) :=
  match loadLLRBTree treeArr nullptr with
  | Some LLRBT =>
      let LLRBT := Delete LLRBT (Key (nth 3 treeArr (mkRef 0))) in
      Some (Traverse LLRBT)
  | None => None
  end.

(** ** Further notions on trees *)

(** The number of nodes on the longest path from the root to a null link. *)
Fixpoint height (t : LLTB_t) : nat :=
  match t with
  | nullptr => 0
  | Node _ l _ r => S (Nat.max (height l) (height r))
  end.

(** The nodes from left to right, each with its colour. *)
Fixpoint inorder_nodes (t : LLTB_t) : list (bool * N) :=
  match t with
  | nullptr => []
  | Node c l x r => inorder_nodes l ++ (c, Key x) :: inorder_nodes r
  end.

(** No node has a red right child. *)
Fixpoint no_red_right (t : LLTB_t) : Prop :=
  match t with
  | nullptr => True
  | Node _ l _ r => IsRed r = false /\ no_red_right l /\ no_red_right r
  end.

(** No red node has a red child. *)
Fixpoint no_red_red (t : LLTB_t) : Prop :=
  match t with
  | nullptr => True
  | Node c l _ r =>
      (c = true -> IsRed l = false /\ IsRed r = false) /\
      no_red_red l /\ no_red_red r
  end.

(** The key of the last node in in-order, [d] for the empty tree: the value
    [TraverseRec] leaves in [prev]. *)
Fixpoint last_key (t : LLTB_t) (d : N) : N :=
  match t with
  | nullptr => d
  | Node _ _ x r => last_key r (Key x)
  end.

(** The key that [Insert] prints as the newest. *)
Definition newest_key (r : report) : N :=
  match r with
  | NoParent k _ => k
  | Parent _ _ k _ => k
  end.

(** The key that [Insert] prints as the parent, if any. *)
Definition parent_key (r : report) : option N :=
  match r with
  | NoParent _ _ => None
  | Parent k _ _ _ => Some k
  end.

(** * Lemmas *)

(** ** Sorted lists of keys *)

Lemma sorted_app_iff (a b : list N) (x : N) :
  sorted (a ++ x :: b) <->
  sorted a /\ sorted b /\ Forall (fun k => k < x) a /\ Forall (fun k => x < k) b.
Proof.
  unfold sorted. induction a as [|y a IH]; simpl.
  - split.
    + intros H. inversion H; subst. repeat split; auto; constructor.
    + intros (_ & Hb & _ & Hx). constructor; auto.
  - split.
    + intros H. inversion H as [|? ? Hs Hf]; subst.
      apply IH in Hs. destruct Hs as (Ha & Hb & Hax & Hxb).
      apply Forall_app in Hf. destruct Hf as [Hya Hyxb].
      inversion Hyxb; subst.
      split; [constructor; auto|].
      split; [auto|].
      split; [constructor; auto|auto].
    + intros (Hya & Hb & Hax & Hxb).
      inversion Hya; subst. inversion Hax; subst.
      constructor.
      * apply IH. repeat split; auto.
      * apply Forall_app. split; auto.
        constructor; auto.
        eapply Forall_impl; [|exact Hxb]. simpl. intros; lia.
Qed.

Lemma BST_sorted (t : LLTB_t) : BST t <-> sorted (inorder t).
Proof.
  induction t as [|c l IHl x r IHr]; simpl.
  - split; auto. intros _. constructor.
  - rewrite sorted_app_iff, IHl, IHr. tauto.
Qed.

(** ** Rotations and flips keep the keys in place *)

Lemma inorder_RotateLeft t : inorder (RotateLeft t) = inorder t.
Proof.
  destruct t as [|c l x [|rc rl y rr]]; simpl; auto.
  now rewrite <- app_assoc.
Qed.

Lemma inorder_RotateRight t : inorder (RotateRight t) = inorder t.
Proof.
  destruct t as [|c [|lc ll x lr] y r]; simpl; auto.
  now rewrite <- app_assoc.
Qed.

Lemma inorder_toggle t : inorder (toggle t) = inorder t.
Proof. now destruct t. Qed.

Lemma inorder_ColorFlip t : inorder (ColorFlip t) = inorder t.
Proof. destruct t; simpl; auto. now rewrite !inorder_toggle. Qed.

Lemma inorder_set_black t : inorder (set_black t) = inorder t.
Proof. now destruct t. Qed.

Lemma InsertRec_Node c l x r ref :
  InsertRec (Node c l x r) ref =
  InsertRec_fix
    (if Key ref =? Key x then Node c l ref r
     else if Key ref <? Key x then Node c (InsertRec l ref) x r
     else Node c l x (InsertRec r ref)).
Proof. reflexivity. Qed.

Lemma inorder_InsertRec_fix t : inorder (InsertRec_fix t) = inorder t.
Proof.
  unfold InsertRec_fix.
  repeat match goal with
         | |- context [if ?b then _ else _] => destruct b
         end;
    rewrite ?inorder_ColorFlip, ?inorder_RotateRight, ?inorder_RotateLeft;
    reflexivity.
Qed.

Lemma inorder_FixUp t : inorder (FixUp t) = inorder t.
Proof.
  unfold FixUp.
  repeat match goal with
         | |- context [if ?b then _ else _] => destruct b
         end;
    rewrite ?inorder_ColorFlip, ?inorder_RotateRight, ?inorder_RotateLeft;
    reflexivity.
Qed.

Lemma inorder_MoveRedLeft t : inorder (MoveRedLeft t) = inorder t.
Proof.
  unfold MoveRedLeft.
  destruct (negb (is_null (pRight (ColorFlip t))) &&
            IsRed (pLeft (pRight (ColorFlip t)))).
  - rewrite inorder_ColorFlip, inorder_RotateLeft.
    destruct t as [|c l x r]; simpl; auto.
    now rewrite inorder_RotateRight, !inorder_toggle.
  - apply inorder_ColorFlip.
Qed.

Lemma inorder_MoveRedRight t : inorder (MoveRedRight t) = inorder t.
Proof.
  unfold MoveRedRight.
  destruct (negb (is_null (pLeft (ColorFlip t))) &&
            IsRed (pLeft (pLeft (ColorFlip t)))).
  - now rewrite inorder_ColorFlip, inorder_RotateRight, inorder_ColorFlip.
  - apply inorder_ColorFlip.
Qed.

(** ** Shape after insertion *)

Lemma llrb_red_node t n :
  IsRed t = true -> llrb t n ->
  exists l x r, t = Node true l x r /\ IsRed l = false /\ IsRed r = false /\
                llrb l n /\ llrb r n.
Proof.
  destruct t as [|[] l x r]; simpl; try discriminate.
  intros _ (? & ? & ? & ?). eauto 10.
Qed.

Ltac use_colours :=
  simpl;
  repeat match goal with
         | H : IsRed ?t = _ |- context [IsRed ?t] => rewrite H; simpl
         end.

Lemma InsertRec_fix_black l x r n :
  IsRed r = false -> llrb r n -> (llrb l n \/ almost l n) ->
  llrb (InsertRec_fix (Node false l x r)) (S n).
Proof.
  intros Hr Hrn [Hl|Hl].
  - unfold InsertRec_fix.
    destruct (IsRed l) eqn:El.
    + destruct (llrb_red_node _ _ El Hl) as (ll & lx & lr & -> & Ell & Elr & ? & ?).
      use_colours. repeat split; auto.
    + use_colours. repeat split; auto.
  - destruct l as [|[] ll lx lr]; simpl in Hl; try contradiction.
    destruct Hl as (Hll & Hlr & Elr).
    unfold InsertRec_fix.
    destruct (IsRed ll) eqn:Ell.
    + destruct (llrb_red_node _ _ Ell Hll) as (a & y & b & -> & ? & ? & ? & ?).
      use_colours. repeat split; auto.
    + use_colours. repeat split; auto.
Qed.

Lemma InsertRec_fix_black_right l x r n :
  llrb l n -> llrb r n ->
  llrb (InsertRec_fix (Node false l x r)) (S n).
Proof.
  intros Hl Hr.
  destruct (IsRed r) eqn:Er.
  - destruct (llrb_red_node _ _ Er Hr) as (rl & rx & rr & -> & Erl & Err & ? & ?).
    unfold InsertRec_fix.
    destruct (IsRed l) eqn:El.
    + destruct (llrb_red_node _ _ El Hl) as (ll & lx & lr & -> & Ell & Elr & ? & ?).
      use_colours. repeat split; auto.
    + use_colours. repeat split; auto.
  - apply InsertRec_fix_black; auto.
Qed.

Lemma InsertRec_fix_red_left l x r n :
  IsRed r = false -> llrb r n -> llrb l n ->
  almost (InsertRec_fix (Node true l x r)) n.
Proof.
  intros Er Hr Hl. unfold InsertRec_fix.
  destruct (IsRed l) eqn:El.
  - destruct (llrb_red_node _ _ El Hl) as (ll & lx & lr & -> & Ell & Elr & ? & ?).
    use_colours. repeat split; auto.
  - use_colours. repeat split; auto.
Qed.

Lemma InsertRec_fix_red_right l x r n :
  IsRed l = false -> llrb l n -> llrb r n ->
  almost (InsertRec_fix (Node true l x r)) n.
Proof.
  intros El Hl Hr.
  destruct (IsRed r) eqn:Er.
  - destruct (llrb_red_node _ _ Er Hr) as (rl & rx & rr & -> & Erl & Err & ? & ?).
    unfold InsertRec_fix. use_colours. repeat split; auto.
  - apply InsertRec_fix_red_left; auto.
Qed.

Lemma InsertRec_shape ref t : forall n,
  llrb t n ->
  (IsRed t = false -> llrb (InsertRec t ref) n) /\
  (IsRed t = true -> almost (InsertRec t ref) n).
Proof.
  induction t as [|c l IHl x r IHr]; intros n H.
  - simpl in *. subst. split; [auto | discriminate].
  - rewrite InsertRec_Node. destruct c; simpl in H.
    + destruct H as (El & Er & Hl & Hr).
      split; [discriminate|intros _].
      destruct (Key ref =? Key x).
      * apply InsertRec_fix_red_left; auto.
      * destruct (Key ref <? Key x).
        -- apply InsertRec_fix_red_left; auto. now apply IHl.
        -- apply InsertRec_fix_red_right; auto. now apply IHr.
    + destruct n as [|n]; [contradiction|].
      destruct H as (Er & Hl & Hr).
      split; [intros _|discriminate].
      destruct (Key ref =? Key x).
      * apply InsertRec_fix_black; auto.
      * destruct (Key ref <? Key x).
        -- apply InsertRec_fix_black; auto.
           destruct (IsRed l) eqn:El; [right|left]; now apply IHl.
        -- apply InsertRec_fix_black_right; auto. now apply IHr.
Qed.

Lemma llrb_set_black t n :
  llrb t n \/ almost t n -> exists m, llrb (set_black t) m.
Proof.
  intros [H|H].
  - destruct t as [|[] l x r]; simpl in *.
    + eauto.
    + exists (S n). tauto.
    + eauto.
  - destruct t as [|[] l x r]; simpl in *; try contradiction.
    exists (S n). tauto.
Qed.

(** ** Keys after insertion and deletion, on sorted lists *)

Lemma ins_list_app k a x b :
  sorted (a ++ x :: b) ->
  ins_list k (a ++ x :: b) =
  if k =? x then a ++ k :: b
  else if k <? x then ins_list k a ++ x :: b
  else a ++ x :: ins_list k b.
Proof.
  induction a as [|y a IH]; simpl; intros Hs.
  - destruct (N.eqb_spec k x), (N.ltb_spec k x); try lia; reflexivity.
  - inversion Hs as [|? ? Hs' Hy]; subst.
    specialize (IH Hs').
    apply Forall_app in Hy. destruct Hy as [_ Hy]. inversion Hy; subst.
    rewrite IH.
    destruct (N.eqb_spec k x), (N.ltb_spec k x), (N.eqb_spec k y),
      (N.ltb_spec k y); try lia; reflexivity.
Qed.

Lemma In_ins_list k l y : In y (ins_list k l) <-> y = k \/ In y l.
Proof.
  induction l as [|z l IH]; simpl.
  - intuition.
  - destruct (N.ltb_spec k z); simpl; [intuition|].
    destruct (N.eqb_spec k z); simpl; [subst; intuition|].
    rewrite IH. intuition.
Qed.

Lemma sorted_ins_list k l : sorted l -> sorted (ins_list k l).
Proof.
  unfold sorted. induction l as [|z l IH]; simpl; intros Hs.
  - repeat constructor.
  - inversion Hs as [|? ? Hs' Hz]; subst.
    destruct (N.ltb_spec k z).
    + constructor; auto. constructor; auto.
      eapply Forall_impl; [|exact Hz]. simpl. intros; lia.
    + destruct (N.eqb_spec k z).
      * subst. constructor; auto.
      * constructor; auto.
        apply Forall_forall. intros y Hy. apply In_ins_list in Hy.
        destruct Hy as [->|Hy]; [lia|].
        rewrite Forall_forall in Hz. auto.
Qed.

Lemma In_del_list k l y : In y (del_list k l) <-> In y l /\ y <> k.
Proof.
  unfold del_list. rewrite filter_In.
  destruct (N.eqb_spec y k); simpl; intuition congruence.
Qed.

Lemma sorted_del_list k l : sorted l -> sorted (del_list k l).
Proof.
  unfold sorted, del_list. induction l as [|z l IH]; simpl; intros Hs.
  - constructor.
  - inversion Hs as [|? ? Hs' Hz]; subst.
    destruct (negb (z =? k)); auto.
    constructor; auto.
    apply Forall_forall. intros y Hy. apply filter_In in Hy.
    rewrite Forall_forall in Hz. apply Hz. tauto.
Qed.

Lemma del_list_absent k l : ~ In k l -> del_list k l = l.
Proof.
  unfold del_list. induction l as [|z l IH]; simpl; intros Hn; auto.
  destruct (N.eqb_spec z k); simpl.
  - subst. tauto.
  - f_equal. apply IH. tauto.
Qed.

Lemma del_list_app k a x b :
  sorted (a ++ x :: b) ->
  del_list k (a ++ x :: b) =
  if k =? x then a ++ b
  else if k <? x then del_list k a ++ x :: b
  else a ++ x :: del_list k b.
Proof.
  intros Hs. apply sorted_app_iff in Hs. destruct Hs as (_ & _ & Ha & Hb).
  rewrite Forall_forall in Ha, Hb.
  unfold del_list at 1. rewrite filter_app. simpl.
  fold (del_list k a). fold (del_list k b).
  destruct (N.eqb_spec k x) as [->|Hne].
  - rewrite N.eqb_refl. simpl.
    rewrite !del_list_absent; auto.
    + intros Hi. apply Hb in Hi. lia.
    + intros Hi. apply Ha in Hi. lia.
  - destruct (N.eqb_spec x k); [congruence|]. simpl.
    destruct (N.ltb_spec k x).
    + rewrite (del_list_absent k b); auto.
      intros Hi. apply Hb in Hi. lia.
    + rewrite (del_list_absent k a); auto.
      intros Hi. apply Ha in Hi. lia.
Qed.

(** ** Keys after [InsertRec] *)

Lemma inorder_InsertRec ref t :
  sorted (inorder t) ->
  inorder (InsertRec t ref) = ins_list (Key ref) (inorder t).
Proof.
  induction t as [|c l IHl x r IHr]; intros Hs; [reflexivity|].
  rewrite InsertRec_Node. simpl inorder in *.
  rewrite inorder_InsertRec_fix, ins_list_app by exact Hs.
  apply sorted_app_iff in Hs. destruct Hs as (Hl & Hr & _ & _).
  destruct (Key ref =? Key x); simpl; auto.
  destruct (Key ref <? Key x); simpl.
  - now rewrite IHl.
  - now rewrite IHr.
Qed.

(** ** Deletion: the primitives on the shapes met during the descent *)

Lemma FixUp_black l x r n :
  llrb l n -> llrb r n ->
  llrb (FixUp (Node false l x r)) (S n) /\
  IsRed (FixUp (Node false l x r)) = IsRed l && IsRed r.
Proof.
  intros Hl Hr. unfold FixUp.
  destruct (IsRed r) eqn:Er.
  - destruct (llrb_red_node _ _ Er Hr) as (rl & rx & rr & -> & Erl & Err & ? & ?).
    destruct (IsRed l) eqn:El.
    + destruct (llrb_red_node _ _ El Hl) as (ll & lx & lr & -> & Ell & Elr & ? & ?).
      use_colours. repeat split; auto.
    + use_colours. repeat split; auto.
  - destruct (IsRed l) eqn:El.
    + destruct (llrb_red_node _ _ El Hl) as (ll & lx & lr & -> & Ell & Elr & ? & ?).
      use_colours. repeat split; auto.
    + use_colours. repeat split; auto.
Qed.

Lemma FixUp_red l x r :
  IsRed l = false -> IsRed r = false ->
  FixUp (Node true l x r) = Node true l x r.
Proof. intros El Er. unfold FixUp. use_colours. reflexivity. Qed.

Lemma MoveRedLeft_norot c ll lx lr x rl rx rr :
  IsRed rl = false ->
  MoveRedLeft (Node c (Node false ll lx lr) x (Node false rl rx rr)) =
  Node (negb c) (Node true ll lx lr) x (Node true rl rx rr).
Proof. intros E. unfold MoveRedLeft. use_colours. reflexivity. Qed.

Lemma MoveRedLeft_rot c ll lx lr x rll rlx rlr rx rr :
  MoveRedLeft
    (Node c (Node false ll lx lr) x (Node false (Node true rll rlx rlr) rx rr)) =
  Node c (Node false (Node true ll lx lr) x rll) rlx (Node false rlr rx rr).
Proof. unfold MoveRedLeft. simpl. now rewrite negb_involutive. Qed.

Lemma MoveRedRight_norot c ll lx lr x rl rx rr :
  IsRed ll = false ->
  MoveRedRight (Node c (Node false ll lx lr) x (Node false rl rx rr)) =
  Node (negb c) (Node true ll lx lr) x (Node true rl rx rr).
Proof. intros E. unfold MoveRedRight. use_colours. reflexivity. Qed.

Lemma MoveRedRight_rot c lll llx llr lx lr x rl rx rr :
  MoveRedRight
    (Node c (Node false (Node true lll llx llr) lx lr) x (Node false rl rx rr)) =
  Node c (Node false lll llx llr) lx (Node false lr x (Node true rl rx rr)).
Proof. unfold MoveRedRight. simpl. now rewrite negb_involutive. Qed.

(** A black-rooted tree of black height 0 is empty; one of positive black
    height is a black node. *)
Lemma llrb_black_0 t : IsRed t = false -> llrb t 0 -> t = nullptr.
Proof. destruct t as [|[] l x r]; simpl; auto; try discriminate; tauto. Qed.

Lemma llrb_black_S t n :
  IsRed t = false -> llrb t (S n) ->
  exists l x r, t = Node false l x r /\ IsRed r = false /\ llrb l n /\ llrb r n.
Proof.
  destruct t as [|[] l x r]; simpl; try discriminate.
  intros _ (? & ? & ?). eauto 10.
Qed.

(** ** The minimum and its removal *)

Lemma inorder_nonnull t : t <> nullptr -> inorder t <> [].
Proof.
  destruct t; [congruence|]. simpl. intros _ H.
  apply app_eq_nil in H. destruct H; discriminate.
Qed.

Lemma tl_app (a b : list N) : a <> [] -> tl (a ++ b) = tl a ++ b.
Proof. destruct a; [congruence|reflexivity]. Qed.

Lemma FindMin_key t :
  t <> nullptr -> inorder t = Key (Ref (FindMin t)) :: tl (inorder t).
Proof.
  induction t as [|c l IHl x r _]; [congruence|intros _].
  destruct l as [|lc ll lx lr]; [reflexivity|].
  change (FindMin (Node c (Node lc ll lx lr) x r))
    with (FindMin (Node lc ll lx lr)).
  change (inorder (Node c (Node lc ll lx lr) x r))
    with (inorder (Node lc ll lx lr) ++ Key x :: inorder r).
  rewrite tl_app by (apply inorder_nonnull; congruence).
  rewrite IHl at 1 by congruence. reflexivity.
Qed.

Lemma DeleteMin_fuel_S f p :
  DeleteMin_fuel (S f) p =
  if is_null (pLeft p) then nullptr
  else
    let p1 :=
      if negb (IsRed (pLeft p)) && negb (IsRed (pLeft (pLeft p)))
      then MoveRedLeft p else p in
    FixUp (set_pLeft p1 (DeleteMin_fuel f (pLeft p1))).
Proof. reflexivity. Qed.

Lemma inorder_FixUp_left c l x r o :
  l <> nullptr -> inorder o = tl (inorder l) ->
  inorder (FixUp (Node c o x r)) = tl (inorder (Node c l x r)).
Proof.
  intros Hl Ho. rewrite inorder_FixUp. simpl. rewrite Ho.
  symmetry. apply tl_app. now apply inorder_nonnull.
Qed.

(** Simplification of one frame: field accesses and colour tests only. *)
Ltac frame :=
  cbn [pLeft pRight is_null IsRed negb andb set_pLeft set_pRight set_Ref Ref Key].

Ltac colours :=
  frame;
  repeat match goal with
         | H : IsRed ?t = _ |- context [IsRed ?t] => rewrite H; frame
         end.

Lemma DeleteMin_fuel_spec f : forall t n,
  (size t <= f)%nat ->
  red_node t n \/ black_3node t n ->
  llrb (DeleteMin_fuel f t) n /\
  (IsRed t = false -> IsRed (DeleteMin_fuel f t) = false) /\
  inorder (DeleteMin_fuel f t) = tl (inorder t).
Proof.
  induction f as [|f IH]; intros t n Hsz Hshape.
  { destruct Hshape as [[E _]|(_ & E & _)]; destruct t; simpl in *;
      try discriminate; lia. }
  rewrite DeleteMin_fuel_S.
  destruct Hshape as [[Ec H]|(Ec & El & H)].
  - (* a red node *)
    destruct (llrb_red_node _ _ Ec H) as (l & x & r & -> & El & Er & Hl & Hr).
    clear Ec H.
    destruct l as [|lc ll lx lr].
    + simpl in Hl. subst n. rewrite (llrb_black_0 r Er Hr). simpl. auto.
    + simpl in El. subst lc.
      destruct n as [|m]; [simpl in Hl; contradiction|].
      destruct Hl as (Elr & Hll & Hlr).
      destruct (llrb_black_S _ _ Er Hr) as (rl & rx & rr & -> & Err & Hrl & Hrr).
      simpl in Hsz.
      destruct (IsRed ll) eqn:Ell; colours.
      * (* the left child is a 3-node *)
        destruct (IH (Node false ll lx lr) (S m)) as (Ho & Hc & Hi).
        { simpl. lia. }
        { right. repeat split; auto. }
        specialize (Hc eq_refl).
        split; [|split; [discriminate|]].
        -- rewrite FixUp_red by auto. simpl. repeat split; auto.
        -- apply inorder_FixUp_left; auto. congruence.
      * destruct (IsRed rl) eqn:Erl.
        -- (* the red link is borrowed from the right sibling *)
           destruct (llrb_red_node _ _ Erl Hrl)
             as (rll & rlx & rlr & -> & ? & ? & ? & ?).
           rewrite <- (inorder_MoveRedLeft (Node true _ x _)).
           rewrite MoveRedLeft_rot. frame.
           destruct (IH (Node false (Node true ll lx lr) x rll) (S m))
             as (Ho & Hc & Hi).
           { simpl in *. lia. }
           { right. simpl. repeat split; auto. }
           specialize (Hc eq_refl).
           split; [|split; [discriminate|]].
           ++ rewrite FixUp_red by auto. simpl. repeat split; auto.
           ++ apply inorder_FixUp_left; auto. congruence.
        -- (* both children become red *)
           rewrite <- (inorder_MoveRedLeft (Node true _ x _)).
           rewrite MoveRedLeft_norot by auto. frame.
           destruct (IH (Node true ll lx lr) m) as (Ho & Hc & Hi).
           { simpl. lia. }
           { left. simpl. repeat split; auto. }
           destruct (FixUp_black (DeleteMin_fuel f (Node true ll lx lr)) x
                       (Node true rl rx rr) m) as (Hf & _); auto.
           { simpl. auto. }
           split; [exact Hf|]. split; [discriminate|].
           apply (inorder_FixUp_left false (Node true ll lx lr)); auto.
           congruence.
  - (* a black node with a red left child *)
    destruct t as [|c l x r]; simpl in Ec, El; try discriminate. subst c.
    destruct n as [|m]; [simpl in H; contradiction|].
    destruct H as (Er & Hl & Hr).
    destruct (llrb_red_node _ _ El Hl) as (ll & lx & lr & -> & Ell & Elr & _ & _).
    colours.
    destruct (IH (Node true ll lx lr) m) as (Ho & Hc & Hi).
    { simpl in *. lia. }
    { left. split; auto. }
    destruct (FixUp_black (DeleteMin_fuel f (Node true ll lx lr)) x r m)
      as (Hf & Hfc); auto.
    split; [exact Hf|]. split.
    + intros _. rewrite Hfc, Er. apply andb_false_r.
    + apply (inorder_FixUp_left false (Node true ll lx lr)); auto. congruence.
Qed.

Lemma DeleteMin_spec t n :
  red_node t n \/ black_3node t n ->
  llrb (DeleteMin t) n /\
  (IsRed t = false -> IsRed (DeleteMin t) = false) /\
  inorder (DeleteMin t) = tl (inorder t).
Proof. apply DeleteMin_fuel_spec. apply Nat.le_refl. Qed.

(** ** Removal of a key *)

Lemma DeleteRec_fuel_S f p key :
  DeleteRec_fuel (S f) p key =
  if key <? Key (Ref p) then
    if negb (is_null (pLeft p)) then
      let p1 :=
        if negb (IsRed (pLeft p)) && negb (IsRed (pLeft (pLeft p)))
        then MoveRedLeft p else p in
      FixUp (set_pLeft p1 (DeleteRec_fuel f (pLeft p1) key))
    else FixUp p
  else
    let p1 := if IsRed (pLeft p) then RotateRight p else p in
    if (key =? Key (Ref p1)) && is_null (pRight p1) then nullptr
    else if negb (is_null (pRight p1)) then
      let p2 :=
        if negb (IsRed (pRight p1)) && negb (IsRed (pLeft (pRight p1)))
        then MoveRedRight p1 else p1 in
      FixUp
        (if key =? Key (Ref p2)
         then let p3 := set_Ref p2 (Ref (FindMin (pRight p2))) in
              set_pRight p3 (DeleteMin (pRight p3))
         else set_pRight p2 (DeleteRec_fuel f (pRight p2) key))
    else FixUp p1.
Proof. reflexivity. Qed.

Lemma sorted_node c l x r :
  sorted (inorder (Node c l x r)) ->
  sorted (inorder l) /\ sorted (inorder r) /\
  Forall (fun k => k < Key x) (inorder l) /\
  Forall (fun k => Key x < k) (inorder r).
Proof. simpl. apply sorted_app_iff. Qed.

Lemma inorder_FixUp_del_left c l x r o key :
  sorted (inorder (Node c l x r)) -> (key <? Key x) = true ->
  inorder o = del_list key (inorder l) ->
  inorder (FixUp (Node c o x r)) = del_list key (inorder (Node c l x r)).
Proof.
  intros Hs Hlt Ho. rewrite inorder_FixUp. simpl.
  rewrite del_list_app by exact Hs. rewrite Hlt.
  apply N.ltb_lt in Hlt.
  destruct (N.eqb_spec key (Key x)); [lia|]. now rewrite Ho.
Qed.

Lemma inorder_FixUp_del_right c l x r o key :
  sorted (inorder (Node c l x r)) ->
  (key <? Key x) = false -> (key =? Key x) = false ->
  inorder o = del_list key (inorder r) ->
  inorder (FixUp (Node c l x o)) = del_list key (inorder (Node c l x r)).
Proof.
  intros Hs Hlt Hne Ho. rewrite inorder_FixUp. simpl.
  rewrite del_list_app by exact Hs. now rewrite Hlt, Hne, Ho.
Qed.

Lemma inorder_FixUp_del_here c l x r o key :
  sorted (inorder (Node c l x r)) -> (key =? Key x) = true ->
  r <> nullptr -> inorder o = tl (inorder r) ->
  inorder (FixUp (Node c l (Ref (FindMin r)) o)) =
  del_list key (inorder (Node c l x r)).
Proof.
  intros Hs He Hr Ho. rewrite inorder_FixUp. simpl.
  rewrite del_list_app by exact Hs. rewrite He, Ho.
  now rewrite <- FindMin_key.
Qed.

Lemma del_list_single key x :
  del_list key [x] = if key =? x then [] else [x].
Proof.
  unfold del_list. simpl. rewrite N.eqb_sym. now destruct (key =? x).
Qed.

(** Facts on keys read off a sorted in-order list. *)
Ltac key_order Hs :=
  let Hb := fresh "Hb" in
  pose proof Hs as Hb; apply BST_sorted in Hb; simpl in Hb;
  repeat match goal with
         | H : _ /\ _ |- _ => destruct H
         | H : Forall _ (_ ++ _) |- _ => apply Forall_app in H
         | H : Forall _ (_ :: _) |- _ => apply Forall_cons_iff in H
         end.

Ltac key_tests :=
  repeat match goal with
         | H : (_ <? _) = true |- _ => apply N.ltb_lt in H
         | H : (_ <? _) = false |- _ => apply N.ltb_ge in H
         | H : (_ =? _) = true |- _ => apply N.eqb_eq in H
         | H : (_ =? _) = false |- _ => apply N.eqb_neq in H
         end.

Arguments del_list : simpl never.

Lemma DeleteRec_fuel_spec f : forall t n key,
  (size t <= f)%nat -> sorted (inorder t) ->
  red_node t n \/ black_3node t n \/ black_right_red t n key ->
  llrb (DeleteRec_fuel f t key) n /\
  (IsRed t = false -> IsRed (DeleteRec_fuel f t key) = false) /\
  inorder (DeleteRec_fuel f t key) = del_list key (inorder t).
Proof.
  induction f as [|f IH]; intros t n key Hsz Hs Hshape.
  { exfalso.
    destruct Hshape as [[E _]|[(_ & E & _)|(l & x & r & m & E & _)]];
      destruct t; simpl in *; try discriminate; lia. }
  rewrite DeleteRec_fuel_S.
  destruct Hshape
    as [[Ec H]|[(Ec & El & H)|(l & x & r & m & -> & -> & El & Hl & [Er Hr] & Hge)]].
  - (* a red node *)
    destruct (llrb_red_node _ _ Ec H) as (l & x & r & -> & El & Er & Hl & Hr).
    clear Ec H. frame.
    destruct (key <? Key x) eqn:Hlt.
    + (* the key is on the left *)
      destruct l as [|lc ll lx lr].
      * simpl in Hl. subst n. rewrite (llrb_black_0 r Er Hr) in *.
        frame. rewrite FixUp_red by auto.
        split; [simpl; auto|]. split; [discriminate|].
        simpl. rewrite del_list_single.
        key_tests. destruct (N.eqb_spec key (Key x)); [lia|reflexivity].
      * simpl in El. subst lc.
        destruct n as [|m]; [simpl in Hl; contradiction|].
        destruct Hl as (Elr & Hll & Hlr).
        destruct (llrb_black_S _ _ Er Hr) as (rl & rx & rr & -> & Err & Hrl & Hrr).
        simpl in Hsz.
        destruct (IsRed ll) eqn:Ell; colours.
        -- (* left child is a 3-node *)
           destruct (sorted_node _ _ _ _ Hs) as (Hsl & _).
           destruct (IH (Node false ll lx lr) (S m) key) as (Ho & Hc & Hi);
             [simpl; lia|exact Hsl|right; left; repeat split; auto|].
           specialize (Hc eq_refl).
           split; [|split; [discriminate|]].
           ++ rewrite FixUp_red by auto. simpl. repeat split; auto.
           ++ apply inorder_FixUp_del_left; auto.
        -- assert (Hs' : sorted (inorder (MoveRedLeft
                       (Node true (Node false ll lx lr) x (Node false rl rx rr)))))
             by (rewrite inorder_MoveRedLeft; exact Hs).
           rewrite <- (inorder_MoveRedLeft (Node true _ x _)).
           destruct (IsRed rl) eqn:Erl.
           ++ (* the red link is borrowed from the right sibling *)
              destruct (llrb_red_node _ _ Erl Hrl)
                as (rll & rlx & rlr & -> & ? & ? & ? & ?).
              rewrite MoveRedLeft_rot in *. frame.
              destruct (sorted_node _ _ _ _ Hs') as (Hsl & _).
              destruct (IH (Node false (Node true ll lx lr) x rll) (S m) key)
                as (Ho & Hc & Hi);
                [simpl in *; lia|exact Hsl
                |right; left; simpl; repeat split; auto|].
              specialize (Hc eq_refl).
              split; [|split; [discriminate|]].
              ** rewrite FixUp_red by auto. simpl. repeat split; auto.
              ** apply inorder_FixUp_del_left; auto.
                 key_order Hs'. key_tests. apply N.ltb_lt. lia.
           ++ (* both children become red *)
              rewrite MoveRedLeft_norot in * by auto. frame.
              destruct (sorted_node _ _ _ _ Hs') as (Hsl & _).
              destruct (IH (Node true ll lx lr) m key) as (Ho & Hc & Hi);
                [simpl; lia|exact Hsl|left; simpl; repeat split; auto|].
              destruct (FixUp_black (DeleteRec_fuel f (Node true ll lx lr) key) x
                          (Node true rl rx rr) m) as (Hf & _); auto.
              { simpl. auto. }
              split; [exact Hf|]. split; [discriminate|].
              apply inorder_FixUp_del_left; auto.
    + (* the key is here or on the right *)
      rewrite El.
      destruct r as [|rc rl rx rr].
      * simpl in Hr. subst n. rewrite (llrb_black_0 l El Hl) in *.
        frame. rewrite andb_true_r.
        destruct (key =? Key x) eqn:He.
        -- simpl. rewrite del_list_single, He. auto.
        -- rewrite FixUp_red by auto.
           split; [simpl; auto|]. split; [discriminate|].
           simpl. now rewrite del_list_single, He.
      * simpl in Er. subst rc.
        destruct n as [|m]; [simpl in Hr; contradiction|].
        destruct Hr as (Err & Hrl & Hrr).
        destruct (llrb_black_S _ _ El Hl) as (ll & lx & lr & -> & Elr & Hll & Hlr).
        simpl in Hsz. frame. rewrite andb_false_r.
        destruct (IsRed rl) eqn:Erl; colours.
        -- (* right child is a 3-node *)
           destruct (sorted_node _ _ _ _ Hs) as (_ & Hsr & _).
           destruct (key =? Key x) eqn:He; frame.
           ++ destruct (DeleteMin_spec (Node false rl rx rr) (S m))
                as (Ho & Hc & Hi); [right; repeat split; auto|].
              specialize (Hc eq_refl).
              split; [|split; [discriminate|]].
              ** rewrite FixUp_red by auto. simpl. repeat split; auto.
              ** apply inorder_FixUp_del_here; auto. congruence.
           ++ destruct (IH (Node false rl rx rr) (S m) key) as (Ho & Hc & Hi);
                [simpl; lia|exact Hsr|right; left; repeat split; auto|].
              specialize (Hc eq_refl).
              split; [|split; [discriminate|]].
              ** rewrite FixUp_red by auto. simpl. repeat split; auto.
              ** apply inorder_FixUp_del_right; auto.
        -- assert (Hs' : sorted (inorder (MoveRedRight
                       (Node true (Node false ll lx lr) x (Node false rl rx rr)))))
             by (rewrite inorder_MoveRedRight; exact Hs).
           rewrite <- (inorder_MoveRedRight (Node true _ x _)).
           destruct (IsRed ll) eqn:Ell.
           ++ (* the left child gives its red link: the node comes up *)
              destruct (llrb_red_node _ _ Ell Hll)
                as (lll & llx & llr & -> & ? & ? & ? & ?).
              rewrite MoveRedRight_rot in *. frame.
              destruct (sorted_node _ _ _ _ Hs') as (_ & Hsr & _).
              assert (Hlx : (key =? Key lx) = false).
              { key_order Hs'. key_tests. apply N.eqb_neq. lia. }
              assert (Hlx' : (key <? Key lx) = false).
              { key_order Hs'. key_tests. apply N.ltb_ge. lia. }
              rewrite Hlx. frame.
              destruct (IH (Node false lr x (Node true rl rx rr)) (S m) key)
                as (Ho & Hc & Hi);
                [simpl in *; lia|exact Hsr| |].
              { right; right. exists lr, x, (Node true rl rx rr), m.
                repeat split; auto. }
              specialize (Hc eq_refl).
              split; [|split; [discriminate|]].
              ** rewrite FixUp_red by auto. simpl. repeat split; auto.
              ** apply inorder_FixUp_del_right; auto.
           ++ (* both children become red *)
              rewrite MoveRedRight_norot in * by auto. frame.
              destruct (sorted_node _ _ _ _ Hs') as (_ & Hsr & _).
              destruct (key =? Key x) eqn:He; frame.
              ** destruct (DeleteMin_spec (Node true rl rx rr) m)
                   as (Ho & Hc & Hi); [left; simpl; repeat split; auto|].
                 destruct (FixUp_black (Node true ll lx lr)
                             (Ref (FindMin (Node true rl rx rr)))
                             (DeleteMin (Node true rl rx rr)) m) as (Hf & _); auto.
                 { simpl. auto. }
                 split; [exact Hf|]. split; [discriminate|].
                 apply inorder_FixUp_del_here; auto. congruence.
              ** destruct (IH (Node true rl rx rr) m key) as (Ho & Hc & Hi);
                   [simpl; lia|exact Hsr|left; simpl; repeat split; auto|].
                 destruct (FixUp_black (Node true ll lx lr) x
                             (DeleteRec_fuel f (Node true rl rx rr) key) m)
                   as (Hf & _); auto.
                 { simpl. auto. }
                 split; [exact Hf|]. split; [discriminate|].
                 apply inorder_FixUp_del_right; auto.
  - (* a black node with a red left child *)
    destruct t as [|c l x r]; simpl in Ec, El; try discriminate. subst c.
    destruct n as [|m]; [simpl in H; contradiction|].
    destruct H as (Er & Hl & Hr).
    destruct (llrb_red_node _ _ El Hl) as (ll & lx & lr & -> & Ell & Elr & Hll & Hlr).
    simpl in Hsz. frame.
    destruct (key <? Key x) eqn:Hlt.
    + destruct (sorted_node _ _ _ _ Hs) as (Hsl & _).
      destruct (IH (Node true ll lx lr) m key) as (Ho & Hc & Hi);
        [simpl; lia|exact Hsl|left; split; auto|].
      destruct (FixUp_black (DeleteRec_fuel f (Node true ll lx lr) key) x r m)
        as (Hf & Hfc); auto.
      split; [exact Hf|]. split.
      * intros _. rewrite Hfc, Er. apply andb_false_r.
      * apply inorder_FixUp_del_left; auto.
    + assert (Hs' : sorted (inorder (RotateRight
                       (Node false (Node true ll lx lr) x r))))
        by (rewrite inorder_RotateRight; exact Hs).
      rewrite <- (inorder_RotateRight (Node false _ x r)).
      cbn [RotateRight] in *. frame. rewrite andb_false_r.
      destruct (sorted_node _ _ _ _ Hs') as (_ & Hsr & _).
      assert (Hlx : (key =? Key lx) = false).
      { key_order Hs'. key_tests. apply N.eqb_neq. lia. }
      assert (Hlx' : (key <? Key lx) = false).
      { key_order Hs'. key_tests. apply N.ltb_ge. lia. }
      rewrite Hlx.
      destruct (IH (Node true lr x r) m key) as (Ho & Hc & Hi);
        [simpl; lia|exact Hsr|left; simpl; repeat split; auto|].
      destruct (FixUp_black ll lx (DeleteRec_fuel f (Node true lr x r) key) m)
        as (Hf & Hfc); auto.
      split; [exact Hf|]. split.
      * intros _. rewrite Hfc, Ell. reflexivity.
      * apply inorder_FixUp_del_right; auto.
  - (* a black node with a red right child, entered from [MoveRedRight] *)
    destruct (llrb_red_node _ _ Er Hr) as (rl & rx & rr & -> & Erl & Err & Hrl & Hrr).
    simpl in Hsz. frame. rewrite Hge, El. frame. rewrite andb_false_r.
    destruct (sorted_node _ _ _ _ Hs) as (_ & Hsr & _).
    destruct (key =? Key x) eqn:He; frame.
    + destruct (DeleteMin_spec (Node true rl rx rr) m)
        as (Ho & Hc & Hi); [left; simpl; repeat split; auto|].
      destruct (FixUp_black l (Ref (FindMin (Node true rl rx rr)))
                  (DeleteMin (Node true rl rx rr)) m) as (Hf & Hfc); auto.
      split; [exact Hf|]. split.
      * intros _. rewrite Hfc, El. reflexivity.
      * apply inorder_FixUp_del_here; auto. congruence.
    + destruct (IH (Node true rl rx rr) m key) as (Ho & Hc & Hi);
        [simpl; lia|exact Hsr|left; simpl; repeat split; auto|].
      destruct (FixUp_black l x (DeleteRec_fuel f (Node true rl rx rr) key) m)
        as (Hf & Hfc); auto.
      split; [exact Hf|]. split.
      * intros _. rewrite Hfc, El. reflexivity.
      * apply inorder_FixUp_del_right; auto.
Qed.

(** ** The colour of the node a frame starts from does not steer it *)

Lemma same_below_inv a b :
  same_below a b ->
  (a = nullptr /\ b = nullptr) \/
  exists c c' l x r, a = Node c l x r /\ b = Node c' l x r.
Proof.
  unfold same_below.
  destruct a as [|c l x r], b as [|c' l' x' r']; simpl; intros H;
    try discriminate; [now left|].
  injection H as -> -> ->. right. eauto 10.
Qed.

Ltac same_below_cases H :=
  apply same_below_inv in H;
  destruct H as [[-> ->]|(?c & ?c & ?l & ?x & ?r & -> & ->)];
  [try reflexivity|].

Lemma same_below_RotateLeft a b :
  same_below a b -> same_below (RotateLeft a) (RotateLeft b).
Proof. intros H. same_below_cases H. now destruct r. Qed.

Lemma same_below_RotateRight a b :
  same_below a b -> same_below (RotateRight a) (RotateRight b).
Proof. intros H. same_below_cases H. now destruct l. Qed.

Lemma same_below_ColorFlip a b :
  same_below a b -> same_below (ColorFlip a) (ColorFlip b).
Proof. intros H. now same_below_cases H. Qed.

Lemma same_below_fields a b :
  same_below a b -> pLeft a = pLeft b /\ pRight a = pRight b /\ Ref a = Ref b.
Proof. intros H. same_below_cases H; auto. Qed.

Lemma same_below_set_pLeft a b o :
  same_below a b -> same_below (set_pLeft a o) (set_pLeft b o).
Proof. intros H. now same_below_cases H. Qed.

Lemma same_below_set_pRight a b o :
  same_below a b -> same_below (set_pRight a o) (set_pRight b o).
Proof. intros H. now same_below_cases H. Qed.

Lemma same_below_set_Ref a b o :
  same_below a b -> same_below (set_Ref a o) (set_Ref b o).
Proof. intros H. now same_below_cases H. Qed.

Lemma same_below_if (c : bool) (F : LLTB_t -> LLTB_t) a b :
  (forall a b, same_below a b -> same_below (F a) (F b)) ->
  same_below a b ->
  same_below (if c then F a else a) (if c then F b else b).
Proof. destruct c; auto. Qed.

Ltac same_fields H :=
  let E1 := fresh in
  let E2 := fresh in
  let E3 := fresh in
  destruct (same_below_fields _ _ H) as (E1 & E2 & E3);
  rewrite <- ?E1, <- ?E2, <- ?E3; clear E1 E2 E3.

Lemma same_below_FixUp a b :
  same_below a b -> same_below (FixUp a) (FixUp b).
Proof.
  intros H. unfold FixUp.
  same_fields H.
  apply (same_below_if (IsRed (pRight a)) _ _ _ same_below_RotateLeft) in H.
  set (a1 := if IsRed (pRight a) then RotateLeft a else a) in *.
  set (b1 := if IsRed (pRight a) then RotateLeft b else b) in *.
  same_fields H.
  apply (same_below_if (IsRed (pLeft a1) && IsRed (pLeft (pLeft a1)))
           _ _ _ same_below_RotateRight) in H.
  set (a2 := if IsRed (pLeft a1) && IsRed (pLeft (pLeft a1))
             then RotateRight a1 else a1) in *.
  set (b2 := if IsRed (pLeft a1) && IsRed (pLeft (pLeft a1))
             then RotateRight b1 else b1) in *.
  same_fields H.
  now apply same_below_if; [apply same_below_ColorFlip|].
Qed.

Lemma same_below_MoveRedLeft a b :
  same_below a b -> same_below (MoveRedLeft a) (MoveRedLeft b).
Proof.
  intros H. unfold MoveRedLeft.
  apply same_below_ColorFlip in H.
  same_fields H.
  destruct (negb (is_null (pRight (ColorFlip a))) &&
            IsRed (pLeft (pRight (ColorFlip a)))); [|exact H].
  apply same_below_ColorFlip, same_below_RotateLeft.
  clear - H. now same_below_cases H.
Qed.

Lemma same_below_MoveRedRight a b :
  same_below a b -> same_below (MoveRedRight a) (MoveRedRight b).
Proof.
  intros H. unfold MoveRedRight.
  apply same_below_ColorFlip in H.
  same_fields H.
  destruct (negb (is_null (pLeft (ColorFlip a))) &&
            IsRed (pLeft (pLeft (ColorFlip a)))); [|exact H].
  now apply same_below_ColorFlip, same_below_RotateRight.
Qed.

Lemma same_below_DeleteRec_fuel f key a b :
  same_below a b ->
  same_below (DeleteRec_fuel f a key) (DeleteRec_fuel f b key).
Proof.
  intros H. destruct f as [|f]; [exact H|].
  rewrite !DeleteRec_fuel_S.
  same_fields H.
  destruct (key <? Key (Ref a)).
  - destruct (negb (is_null (pLeft a))); [|now apply same_below_FixUp].
    apply (same_below_if
             (negb (IsRed (pLeft a)) && negb (IsRed (pLeft (pLeft a))))
             _ _ _ same_below_MoveRedLeft) in H.
    cbv zeta.
    set (a1 := if negb (IsRed (pLeft a)) && negb (IsRed (pLeft (pLeft a)))
               then MoveRedLeft a else a) in *.
    set (b1 := if negb (IsRed (pLeft a)) && negb (IsRed (pLeft (pLeft a)))
               then MoveRedLeft b else b) in *.
    same_fields H.
    now apply same_below_FixUp, same_below_set_pLeft.
  - apply (same_below_if (IsRed (pLeft a)) _ _ _ same_below_RotateRight) in H.
    cbv zeta.
    set (a1 := if IsRed (pLeft a) then RotateRight a else a) in *.
    set (b1 := if IsRed (pLeft a) then RotateRight b else b) in *.
    same_fields H.
    destruct ((key =? Key (Ref a1)) && is_null (pRight a1)); [reflexivity|].
    destruct (negb (is_null (pRight a1))); [|now apply same_below_FixUp].
    apply (same_below_if
             (negb (IsRed (pRight a1)) && negb (IsRed (pLeft (pRight a1))))
             _ _ _ same_below_MoveRedRight) in H.
    set (a2 := if negb (IsRed (pRight a1)) && negb (IsRed (pLeft (pRight a1)))
               then MoveRedRight a1 else a1) in *.
    set (b2 := if negb (IsRed (pRight a1)) && negb (IsRed (pLeft (pRight a1)))
               then MoveRedRight b1 else b1) in *.
    same_fields H.
    apply same_below_FixUp.
    destruct (key =? Key (Ref a2)).
    + clear - H. now same_below_cases H.
    + now apply same_below_set_pRight.
Qed.

(** ** [Delete] on a valid tree *)

Lemma set_black_black t : IsRed t = false -> set_black t = t.
Proof. destruct t as [|[] l x r]; simpl; auto; discriminate. Qed.

Lemma Delete_nonnull c l x r key :
  Delete (Node c l x r) key = set_black (DeleteRec (Node c l x r) key).
Proof.
  unfold Delete. cbn [is_null negb].
  now destruct (DeleteRec (Node c l x r) key).
Qed.

Lemma Delete_spec t key :
  Valid t ->
  Valid (Delete t key) /\ inorder (Delete t key) = del_list key (inorder t).
Proof.
  intros (Hs & Ec & n & H).
  assert (Hgoal : (exists m, llrb (Delete t key) m) /\
                  IsRed (Delete t key) = false /\
                  inorder (Delete t key) = del_list key (inorder t)).
  { destruct t as [|c l x r].
    - simpl. split; [eauto|]. split; reflexivity.
    - simpl in Ec. subst c. rewrite Delete_nonnull.
      destruct n as [|m]; [simpl in H; contradiction|].
      destruct (IsRed l) eqn:El.
      + (* the root is a 3-node *)
        destruct (DeleteRec_fuel_spec (size (Node false l x r))
                    (Node false l x r) (S m) key) as (Ho & Hc & Hi); auto.
        { right; left. split; [|split]; auto. }
        fold (DeleteRec (Node false l x r) key) in *.
        rewrite set_black_black by auto. eauto.
      + (* the root is a 2-node: it behaves as a red node would *)
        destruct H as (Er & Hl & Hr).
        destruct (DeleteRec_fuel_spec (size (Node true l x r))
                    (Node true l x r) m key) as (Ho & _ & Hi); auto.
        { left. simpl. repeat split; auto. }
        assert (Hsb : set_black (DeleteRec (Node false l x r) key) =
                      set_black (DeleteRec_fuel (size (Node true l x r))
                                   (Node true l x r) key)).
        { apply same_below_DeleteRec_fuel. reflexivity. }
        rewrite Hsb. split; [|split].
        * apply llrb_set_black with (n := m). now left.
        * now destruct (DeleteRec_fuel _ _ _).
        * rewrite inorder_set_black. exact Hi. }
  destruct Hgoal as (Hm & Hc & Hi).
  split; [|exact Hi].
  split; [|split; auto].
  rewrite Hi. now apply sorted_del_list.
Qed.

(** ** [Insert] on a valid tree *)

Lemma llrb_children_nonnull c l x r n :
  llrb (Node c l x r) n -> r <> nullptr -> l <> nullptr.
Proof.
  intros H Hr Hl. subst l.
  destruct r as [|rc rl rx rr]; [congruence|].
  destruct c; simpl in H.
  - destruct H as (_ & Erc & -> & H). subst rc. exact H.
  - destruct n as [|m]; [exact H|].
    destruct H as (Erc & -> & H). simpl in Erc. subst rc. exact H.
Qed.

Lemma llrb_right_null c l x r n :
  llrb (Node c l x r) n -> r = nullptr ->
  l = nullptr \/ exists lx, l = Node true nullptr lx nullptr.
Proof.
  intros H ->. destruct c; simpl in H.
  - destruct H as (El & _ & Hl & ->). left. now apply llrb_black_0.
  - destruct n as [|m]; [contradiction|].
    destruct H as (_ & Hl & ->).
    destruct l as [|[] ll lx lr]; simpl in Hl; auto; [|contradiction].
    right. destruct Hl as (Ell & Elr & Hll & Hlr).
    rewrite (llrb_black_0 ll Ell Hll), (llrb_black_0 lr Elr Hlr). eauto.
Qed.

Lemma llrb_children c l x r n :
  llrb (Node c l x r) n -> exists m, llrb l m /\ llrb r m.
Proof.
  destruct c; simpl.
  - intros (_ & _ & ? & ?). eauto.
  - destruct n; [contradiction|]. intros (_ & ? & ?). eauto.
Qed.

Lemma FindParent_found ref t : forall n,
  llrb t n -> sorted (inorder t) ->
  In (Key ref) (inorder t) -> Key (Ref t) <> Key ref ->
  exists p, FindParent t ref = Some p /\ readable_parent p ref.
Proof.
  induction t as [|c l IHl x r IHr]; intros n H Hs Hin Hne; [contradiction|].
  destruct (llrb_children _ _ _ _ _ H) as (m & Hl & Hr).
  destruct (sorted_node _ _ _ _ Hs) as (Hsl & Hsr & Hlx & Hxr).
  rewrite Forall_forall in Hlx, Hxr.
  simpl in Hin, Hne. apply in_app_or in Hin.
  assert (Hl0 : l <> nullptr).
  { destruct Hin as [Hin|[Hin|Hin]].
    - intros ->. contradiction.
    - congruence.
    - apply (llrb_children_nonnull _ _ _ _ _ H). intros ->. contradiction. }
  destruct l as [|lc ll lx lr]; [congruence|].
  cbn [FindParent]. fold (FindParent (Node lc ll lx lr) ref).
  destruct (N.eqb_spec (Key lx) (Key ref)) as [Hlk|Hlk].
  { eexists. split; [reflexivity|]. simpl. now left. }
  destruct r as [|rc rl rx rr].
  { exfalso.
    destruct (llrb_right_null _ _ _ _ _ H eq_refl) as [E|(y & E)];
      [discriminate|].
    injection E as -> -> -> ->.
    destruct Hin as [Hin|[Hin|Hin]]; simpl in Hin; try tauto; congruence. }
  fold (FindParent (Node rc rl rx rr) ref).
  destruct (N.eqb_spec (Key rx) (Key ref)) as [Hrk|Hrk].
  { eexists. split; [reflexivity|]. simpl. right. congruence. }
  destruct (N.ltb_spec (Key ref) (Key x)) as [Hlt|Hge].
  - apply (IHl m); auto.
    destruct Hin as [Hin|[Hin|Hin]]; auto; [congruence|].
    apply Hxr in Hin. lia.
  - apply (IHr m); auto.
    destruct Hin as [Hin|[Hin|Hin]]; auto; [|congruence].
    apply Hlx in Hin. lia.
Qed.

Lemma Insert_report_defined ref t n :
  llrb t n -> sorted (inorder t) -> In (Key ref) (inorder t) ->
  exists rep, Insert_report t ref = Some rep.
Proof.
  intros H Hs Hin. destruct t as [|c l x r]; [contradiction|].
  unfold Insert_report.
  destruct (N.eqb_spec (Key x) (Key ref)) as [E|E]; [eauto|].
  destruct (FindParent_found ref _ n H Hs Hin E) as (p & -> & Hp).
  destruct p as [|pc [|lc pll plx plr] px pr]; simpl in Hp; try contradiction.
  destruct (N.eqb_spec (Key plx) (Key ref)); [eauto|].
  destruct Hp as [Hp|Hp]; [congruence|].
  destruct pr; [congruence|eauto].
Qed.

Lemma InsertRec_nonnull t ref : InsertRec t ref <> nullptr.
Proof.
  intros H. apply (f_equal inorder) in H.
  assert (Hin : In (Key ref) (inorder (InsertRec t ref))).
  { clear H. induction t as [|c l IHl x r IHr]; [now left|].
    rewrite InsertRec_Node, inorder_InsertRec_fix.
    destruct (Key ref =? Key x); [|destruct (Key ref <? Key x)]; simpl;
      apply in_or_app; simpl; auto. }
  rewrite H in Hin. exact Hin.
Qed.

Lemma Insert_spec t ref :
  Valid t ->
  exists t', Insert t ref = Some (t', true) /\ Valid t' /\
             inorder t' = ins_list (Key ref) (inorder t).
Proof.
  intros (Hs & Ec & n & H).
  set (t' := set_black (InsertRec t ref)).
  assert (Hi : inorder t' = ins_list (Key ref) (inorder t)).
  { unfold t'. rewrite inorder_set_black. now apply inorder_InsertRec. }
  assert (Hs' : sorted (inorder t')).
  { rewrite Hi. now apply sorted_ins_list. }
  assert (Hm : exists m, llrb t' m).
  { apply llrb_set_black with (n := n). left.
    now apply (InsertRec_shape ref t n H). }
  assert (Ec' : IsRed t' = false).
  { unfold t'. now destruct (InsertRec t ref). }
  exists t'. split; [|split; [split; auto|exact Hi]].
  unfold Insert. fold t'.
  destruct Hm as (m & Hm).
  destruct (Insert_report_defined ref t' m Hm Hs') as (rep & ->); auto.
  rewrite Hi. apply In_ins_list. now left.
Qed.

(** ** Valid trees satisfy I1-I5 *)

Lemma llrb_left_leaning t : forall n, llrb t n -> left_leaning t.
Proof.
  induction t as [|c l IHl x r IHr]; intros n H; simpl; auto.
  destruct (llrb_children _ _ _ _ _ H) as (m & Hl & Hr).
  split; [|split; eauto].
  intros Er. destruct c; simpl in H.
  - destruct H as (_ & E & _). congruence.
  - destruct n; [contradiction|]. destruct H as (E & _). congruence.
Qed.

Lemma llrb_no_double_red_left t : forall n, llrb t n -> no_double_red_left t.
Proof.
  induction t as [|c l IHl x r IHr]; intros n H; simpl; auto.
  destruct (llrb_children _ _ _ _ _ H) as (m & Hl & Hr).
  split; [|split; eauto].
  intros (El & Ell).
  destruct (llrb_red_node _ _ El Hl) as (ll & lx & lr & -> & E & _).
  simpl in Ell. congruence.
Qed.

Lemma llrb_no_red_red t : forall n, llrb t n -> no_red_red t.
Proof.
  induction t as [|c l IHl x r IHr]; intros n H; simpl; auto.
  destruct (llrb_children _ _ _ _ _ H) as (m & Hl & Hr).
  split; [|split; eauto].
  intros ->. simpl in H. tauto.
Qed.

Lemma llrb_path_blacks t : forall n,
  llrb t n -> Forall (fun m => m = n) (path_blacks t).
Proof.
  induction t as [|c l IHl x r IHr]; intros n H; simpl.
  - simpl in H. subst. repeat constructor.
  - destruct c; simpl in H.
    + destruct H as (_ & _ & Hl & Hr).
      rewrite map_id. apply Forall_app. split; auto.
    + destruct n as [|m]; [contradiction|]. destruct H as (_ & Hl & Hr).
      apply Forall_map, Forall_app.
      split; (eapply Forall_impl; [|eauto]); simpl; intros; subst; auto.
Qed.

Lemma Valid_Invariants t : Valid t -> Invariants t.
Proof.
  intros (Hs & Ec & n & H).
  split; [now apply BST_sorted|].
  split; [exact Ec|].
  split; [now apply llrb_left_leaning with n|].
  split; [now apply llrb_no_double_red_left with n|].
  exists n. now apply llrb_path_blacks.
Qed.

Lemma Valid_nullptr : Valid nullptr.
Proof. split; [constructor|]. split; [reflexivity|]. now exists 0%nat. Qed.

(** ** Every reachable tree is valid *)

Lemma run_Valid ops : forall t s,
  Valid t -> (forall k, In k (inorder t) <-> In k s) ->
  exists t', run ops t = Some t' /\ Valid t' /\
             (forall k, In k (inorder t') <-> In k (live_keys ops s)).
Proof.
  induction ops as [|o ops IH]; intros t s Hv Hk.
  - exists t. simpl. auto.
  - destruct o as [ref|key]; simpl.
    + destruct (Insert_spec t ref Hv) as (t1 & -> & Hv1 & Hi).
      apply IH; auto.
      intros k. rewrite Hi, In_ins_list. simpl. rewrite Hk.
      intuition congruence.
    + destruct (Delete_spec t key Hv) as (Hv1 & Hi).
      apply IH; auto.
      intros k. rewrite Hi, In_del_list, Hk.
      split.
      * intros (? & ?). now apply in_in_remove.
      * intros H. apply in_remove in H. tauto.
Qed.

Lemma reachable_Valid t : reachable t -> Valid t.
Proof.
  intros (ops & H).
  destruct (run_Valid ops nullptr [] Valid_nullptr) as (t' & H' & Hv & _).
  - reflexivity.
  - congruence.
Qed.

(** ** Traversal *)

Lemma emitted_keys_app a b :
  emitted_keys (a ++ b) = emitted_keys a ++ emitted_keys b.
Proof. unfold emitted_keys. apply flat_map_app. Qed.

Lemma TraverseRec_keys t : forall prev,
  emitted_keys (fst (TraverseRec t prev)) = inorder t.
Proof.
  induction t as [|c l IHl x r IHr]; intros prev; [reflexivity|].
  simpl TraverseRec.
  assert (Hl : forall p,
    emitted_keys (fst (if negb (is_null l) then TraverseRec l p else ([], p))) =
    inorder l).
  { intros p. destruct l; [reflexivity|]. apply IHl. }
  assert (Hr : forall p,
    emitted_keys (fst (if negb (is_null r) then TraverseRec r p else ([], p))) =
    inorder r).
  { intros p. destruct r; [reflexivity|]. apply IHr. }
  specialize (Hl prev).
  destruct (if negb (is_null l) then TraverseRec l prev else ([], prev))
    as [out1 prev1].
  specialize (Hr (Key x)).
  destruct (if negb (is_null r) then TraverseRec r (Key x) else ([], Key x))
    as [out2 prev2].
  simpl in *. rewrite !emitted_keys_app, Hl.
  f_equal. destruct (negb (prev1 <? Key x)); simpl; now rewrite Hr.
Qed.

Lemma Traverse_keys t : emitted_keys (Traverse t) = inorder t.
Proof.
  unfold Traverse. destruct t; [reflexivity|]. apply TraverseRec_keys.
Qed.

(** ** Inserting a key that is already bound *)

Lemma InsertRec_fix_id c l x r n :
  llrb (Node c l x r) n -> InsertRec_fix (Node c l x r) = Node c l x r.
Proof.
  intros H.
  assert (Er : IsRed r = false).
  { destruct c; simpl in H; [tauto|]. destruct n; [contradiction|tauto]. }
  assert (Ell : IsRed l && IsRed (pLeft l) = false).
  { destruct (llrb_children _ _ _ _ _ H) as (m & Hl & _).
    destruct (IsRed l) eqn:El; [|reflexivity].
    destruct (llrb_red_node _ _ El Hl) as (ll & lx & lr & -> & E & _).
    exact E. }
  unfold InsertRec_fix. frame. rewrite Er. frame. rewrite Ell. frame.
  now rewrite Er, andb_false_r.
Qed.

Lemma Key_inj (a b : VoidRef_t) : Key a = Key b -> a = b.
Proof. destruct a, b. simpl. congruence. Qed.

Lemma InsertRec_bound ref t : forall n,
  llrb t n -> sorted (inorder t) -> In (Key ref) (inorder t) ->
  InsertRec t ref = t /\ InsertRec_news t ref = 0%nat.
Proof.
  induction t as [|c l IHl x r IHr]; intros n H Hs Hin; [contradiction|].
  rewrite InsertRec_Node. simpl InsertRec_news.
  destruct (llrb_children _ _ _ _ _ H) as (m & Hl & Hr).
  destruct (sorted_node _ _ _ _ Hs) as (Hsl & Hsr & Hlx & Hxr).
  rewrite Forall_forall in Hlx, Hxr.
  simpl in Hin. apply in_app_or in Hin.
  destruct (N.eqb_spec (Key ref) (Key x)) as [E|E].
  - apply Key_inj in E. subst x. split; [|reflexivity].
    now apply InsertRec_fix_id with n.
  - destruct (N.ltb_spec (Key ref) (Key x)) as [Hlt|Hge].
    + destruct (IHl m) as (-> & ->); auto.
      * destruct Hin as [Hin|[Hin|Hin]]; auto; [congruence|].
        apply Hxr in Hin. lia.
      * split; [|reflexivity]. now apply InsertRec_fix_id with n.
    + destruct (IHr m) as (-> & ->); auto.
      * destruct Hin as [Hin|[Hin|Hin]]; auto; [|congruence].
        apply Hlx in Hin. lia.
      * split; [|reflexivity]. now apply InsertRec_fix_id with n.
Qed.

Lemma Insert_bound t ref :
  Valid t -> In (Key ref) (inorder t) ->
  Insert t ref = Some (t, true) /\ InsertRec_news t ref = 0%nat.
Proof.
  intros Hv Hin.
  destruct (Insert_spec t ref Hv) as (t' & Ht' & _).
  destruct Hv as (Hs & Ec & n & H).
  destruct (InsertRec_bound ref t n H Hs Hin) as (E & Hn).
  split; [|exact Hn].
  unfold Insert in *. rewrite E in *. rewrite set_black_black in * by exact Ec.
  destruct (Insert_report t ref); [reflexivity|discriminate].
Qed.

(** Every node added by [InsertRec] comes from a call to [NewNode]. *)
(** ** Sizes *)

Lemma size_RotateLeft t : size (RotateLeft t) = size t.
Proof. destruct t as [|c l x [|rc rl rx rr]]; simpl; lia. Qed.

Lemma size_RotateRight t : size (RotateRight t) = size t.
Proof. destruct t as [|c [|lc ll lx lr] x r]; simpl; lia. Qed.

Lemma size_ColorFlip t : size (ColorFlip t) = size t.
Proof. destruct t as [|c [|lc ll lx lr] x [|rc rl rx rr]]; simpl; lia. Qed.

Lemma size_InsertRec_fix t : size (InsertRec_fix t) = size t.
Proof.
  unfold InsertRec_fix.
  repeat match goal with
         | |- context [if ?b then _ else _] => destruct b
         end;
    now rewrite ?size_ColorFlip, ?size_RotateRight, ?size_RotateLeft.
Qed.

Lemma size_InsertRec ref t :
  size (InsertRec t ref) = (size t + InsertRec_news t ref)%nat.
Proof.
  induction t as [|c l IHl x r IHr]; [reflexivity|].
  rewrite InsertRec_Node, size_InsertRec_fix. simpl InsertRec_news.
  destruct (Key ref =? Key x); [simpl; lia|].
  destruct (Key ref <? Key x); simpl; rewrite ?IHl, ?IHr; lia.
Qed.

(** ** The steps of the specification and the tests of the code *)

Lemma Spec_step_a n :
  Spec.step_a n =
  if IsRed (pRight n) && negb (IsRed (pLeft n)) then RotateLeft n else n.
Proof.
  unfold Spec.step_a.
  destruct n as [|c [|[] ll lx lr] x [|[] rl rx rr]]; reflexivity.
Qed.

Lemma Spec_step_b n :
  Spec.step_b n =
  if IsRed (pLeft n) && IsRed (pLeft (pLeft n)) then RotateRight n else n.
Proof.
  unfold Spec.step_b.
  destruct n as [|c [|[] [|[] lll llx llr] lx lr] x r]; reflexivity.
Qed.

Lemma Spec_step_c n :
  Spec.step_c n =
  if IsRed (pLeft n) && IsRed (pRight n) then ColorFlip n else n.
Proof.
  unfold Spec.step_c.
  destruct n as [|c [|[] ll lx lr] x [|[] rl rx rr]]; reflexivity.
Qed.

(** The order of the three steps matters: on the node built when 10 is
    inserted below 20 and 30, flipping before rotating right gives another
    tree. *)
Lemma fix_up_triple_order_matters :
  let n := Node false
             (Node true (Node true nullptr (mkRef 10) nullptr) (mkRef 20) nullptr)
             (mkRef 30) nullptr in
  Spec.step_c (Spec.step_b (Spec.step_a n)) <>
  Spec.step_b (Spec.step_c (Spec.step_a n)).
Proof. simpl. discriminate. Qed.

(** ** The nodes visited by a deletion *)

Lemma inorder_left_descent p : inorder (left_descent p) = inorder p.
Proof.
  unfold left_descent.
  destruct (negb (IsRed (pLeft p)) && negb (IsRed (pLeft (pLeft p))));
    [apply inorder_MoveRedLeft|reflexivity].
Qed.

Lemma inorder_right_turn p : inorder (right_turn p) = inorder p.
Proof.
  unfold right_turn.
  destruct (IsRed (pLeft p)); [apply inorder_RotateRight|reflexivity].
Qed.

Lemma inorder_right_descent p : inorder (right_descent p) = inorder p.
Proof.
  unfold right_descent. cbv zeta.
  destruct (negb (IsRed (pRight (right_turn p))) &&
            negb (IsRed (pLeft (pRight (right_turn p)))));
    rewrite ?inorder_MoveRedRight; apply inorder_right_turn.
Qed.

Lemma inorder_fields p :
  p <> nullptr ->
  inorder p = inorder (pLeft p) ++ Key (Ref p) :: inorder (pRight p).
Proof. destruct p; [congruence|reflexivity]. Qed.

Lemma inorder_children p :
  (exists b, inorder p = inorder (pLeft p) ++ b) /\
  (exists a, inorder p = a ++ inorder (pRight p)).
Proof.
  destruct p as [|c l x r]; simpl.
  - split; now exists [].
  - split; [now exists (Key x :: inorder r)|].
    exists (inorder l ++ [Key x]). now rewrite <- app_assoc.
Qed.

(** The keys below a visited node are consecutive keys of the tree. *)
Lemma visits_segment key root p :
  visits key root p ->
  exists pre post, inorder root = pre ++ inorder p ++ post.
Proof.
  induction 1 as [Hroot|p Hv (pre & post & IH) Hlt Hl
                 |p Hv (pre & post & IH) Hge Hr Hne].
  - exists [], []. now rewrite app_nil_r.
  - destruct (inorder_children (left_descent p)) as ((b & Hb) & _).
    rewrite inorder_left_descent in Hb.
    exists pre, (b ++ post). now rewrite IH, Hb, <- app_assoc.
  - destruct (inorder_children (right_descent p)) as (_ & (a & Ha)).
    rewrite inorder_right_descent in Ha.
    exists (pre ++ a), post. now rewrite IH, Ha, <- !app_assoc.
Qed.

Lemma MoveRedRight_pRight p :
  pRight p <> nullptr -> pRight (MoveRedRight p) <> nullptr.
Proof.
  destruct p as [|c l x [|rc rl rx rr]]; simpl; try congruence. intros _.
  unfold MoveRedRight.
  destruct l as [|lc [|[] lll llx llr] lx lr]; simpl; discriminate.
Qed.

Lemma right_descent_pRight p :
  pRight (right_turn p) <> nullptr -> pRight (right_descent p) <> nullptr.
Proof.
  intros H. unfold right_descent. cbv zeta.
  destruct (negb (IsRed (pRight (right_turn p))) &&
            negb (IsRed (pLeft (pRight (right_turn p))))); auto.
  now apply MoveRedRight_pRight.
Qed.

Lemma sorted_children p :
  sorted (inorder p) ->
  sorted (inorder (pLeft p)) /\ sorted (inorder (pRight p)).
Proof.
  destruct p as [|c l x r]; simpl; [auto|].
  intros H. apply sorted_app_iff in H. tauto.
Qed.

Lemma descent_left key q :
  descent_shape key q ->
  (key <? Key (Ref q)) = true -> pLeft q <> nullptr ->
  descent_shape key (pLeft (left_descent q)).
Proof.
  intros (n & [[Ec H]|[(Ec & El & H)|(l & x & r & m & -> & _ & _ & _ & _ & Hge)]])
         Hlt Hnn.
  - destruct (llrb_red_node _ _ Ec H) as (l & x & r & -> & El & Er & Hl & Hr).
    destruct l as [|lc ll lx lr]; [simpl in Hnn; congruence|].
    simpl in El. subst lc.
    destruct n as [|m]; [simpl in Hl; contradiction|].
    destruct Hl as (Elr & Hll & Hlr).
    destruct (llrb_black_S _ _ Er Hr) as (rl & rx & rr & -> & Err & Hrl & Hrr).
    unfold left_descent.
    destruct (IsRed ll) eqn:Ell; colours.
    + exists (S m). right; left. split; [|split]; simpl; auto.
    + destruct (IsRed rl) eqn:Erl.
      * destruct (llrb_red_node _ _ Erl Hrl)
          as (rll & rlx & rlr & -> & ? & ? & ? & ?).
        rewrite MoveRedLeft_rot. frame.
        exists (S m). right; left. simpl. repeat split; auto.
      * rewrite MoveRedLeft_norot by auto. frame.
        exists m. left. simpl. repeat split; auto.
  - destruct q as [|c l x r]; simpl in Ec, El; try discriminate. subst c.
    destruct n as [|m]; [simpl in H; contradiction|].
    destruct H as (Er & Hl & Hr).
    unfold left_descent. colours.
    exists m. left. split; auto.
  - simpl in Hlt. congruence.
Qed.

Lemma descent_right key q :
  descent_shape key q -> sorted (inorder q) ->
  (key <? Key (Ref q)) = false -> pRight (right_turn q) <> nullptr ->
  descent_shape key (pRight (right_descent q)) /\
  ((exists n, red_node (pRight (right_descent q)) n \/
              black_3node (pRight (right_descent q)) n) \/
   Key (Ref (right_descent q)) < key).
Proof.
  intros (n & [[Ec H]|[(Ec & El & H)
                      |(l & x & r & m & -> & -> & El & Hl & [Er Hr] & _)]])
         Hs Hge Hnn.
  - destruct (llrb_red_node _ _ Ec H) as (l & x & r & -> & El & Er & Hl & Hr).
    unfold right_descent, right_turn in *. revert Hnn. colours. intros Hnn.
    destruct r as [|rc rl rx rr]; [congruence|].
    simpl in Er. subst rc.
    destruct n as [|m]; [simpl in Hr; contradiction|].
    destruct Hr as (Err & Hrl & Hrr).
    destruct (llrb_black_S _ _ El Hl) as (ll & lx & lr & -> & Elr & Hll & Hlr).
    destruct (IsRed rl) eqn:Erl; colours.
    + assert (Hb : black_3node (Node false rl rx rr) (S m)).
      { split; [|split]; simpl; auto. }
      split; [exists (S m); auto|left; exists (S m); auto].
    + destruct (IsRed ll) eqn:Ell.
      * destruct (llrb_red_node _ _ Ell Hll)
          as (lll & llx & llr & -> & ? & ? & ? & ?).
        rewrite MoveRedRight_rot. frame. split.
        -- exists (S m). right; right.
           exists lr, x, (Node true rl rx rr), m.
           repeat split; simpl; auto.
        -- right. key_order Hs. key_tests. simpl in *. lia.
      * rewrite MoveRedRight_norot by auto. frame.
        assert (Hb : red_node (Node true rl rx rr) m).
        { split; simpl; auto. }
        split; [exists m; auto|left; exists m; auto].
  - destruct q as [|c l x r]; simpl in Ec, El; try discriminate. subst c.
    destruct n as [|m]; [simpl in H; contradiction|].
    destruct H as (Er & Hl & Hr).
    destruct (llrb_red_node _ _ El Hl) as (ll & lx & lr & -> & Ell & Elr & Hll & Hlr).
    unfold right_descent, right_turn. colours. cbn [RotateRight]. colours.
    assert (Hb : red_node (Node true lr x r) m).
    { split; simpl; auto. }
    split; [exists m; auto|left; exists m; auto].
  - unfold right_descent, right_turn. colours.
    split; [exists m; left; split; auto|left; exists m; left; split; auto].
Qed.

Lemma same_below_left_descent a b :
  same_below a b -> same_below (left_descent a) (left_descent b).
Proof.
  intros H. unfold left_descent. same_fields H.
  now apply same_below_if; [apply same_below_MoveRedLeft|].
Qed.

Lemma same_below_right_turn a b :
  same_below a b -> same_below (right_turn a) (right_turn b).
Proof.
  intros H. unfold right_turn. same_fields H.
  now apply same_below_if; [apply same_below_RotateRight|].
Qed.

Lemma same_below_right_descent a b :
  same_below a b -> same_below (right_descent a) (right_descent b).
Proof.
  intros H. unfold right_descent. cbv zeta.
  apply same_below_right_turn in H. same_fields H.
  now apply same_below_if; [apply same_below_MoveRedRight|].
Qed.

Lemma same_below_inorder a b : same_below a b -> inorder a = inorder b.
Proof.
  intros H. apply (f_equal inorder) in H. now rewrite !inorder_set_black in H.
Qed.

(** Every node visited by a deletion on a valid tree has a descent shape, up
    to the colour of the root for the root itself. *)
Lemma visits_shape key t p :
  Valid t -> visits key t p ->
  sorted (inorder p) /\ exists q, same_below p q /\ descent_shape key q.
Proof.
  intros (Hs & Ec & n & H) Hv.
  induction Hv as [Hroot|p Hv (Hsp & q & Hq & Hd) Hlt Hl
                  |p Hv (Hsp & q & Hq & Hd) Hge Hr Hne].
  - split; [exact Hs|].
    destruct t as [|c l x r]; [congruence|]. simpl in Ec. subst c.
    destruct n as [|m]; [simpl in H; contradiction|].
    destruct (IsRed l) eqn:El.
    + exists (Node false l x r). split; [reflexivity|].
      exists (S m). right; left. split; [|split]; auto.
    + exists (Node true l x r). split; [reflexivity|].
      destruct H as (Er & Hl & Hr).
      exists m. left. split; simpl; auto.
  - split.
    + apply sorted_children. now rewrite inorder_left_descent.
    + exists (pLeft (left_descent p)). split; [reflexivity|].
      destruct (same_below_fields _ _ (same_below_left_descent _ _ Hq))
        as (-> & _ & _).
      destruct (same_below_fields _ _ Hq) as (El & _ & Ek).
      apply descent_left; auto; congruence.
  - split.
    + apply sorted_children. now rewrite inorder_right_descent.
    + exists (pRight (right_descent p)). split; [reflexivity|].
      destruct (same_below_fields _ _ (same_below_right_descent _ _ Hq))
        as (_ & -> & _).
      destruct (same_below_fields _ _ (same_below_right_turn _ _ Hq))
        as (_ & Er & _).
      destruct (same_below_fields _ _ Hq) as (_ & _ & Ek).
      apply descent_right; auto; try congruence.
      now rewrite <- (same_below_inorder _ _ Hq).
Qed.

(** In a sorted list the element that follows [k] is the least one above [k]. *)
Lemma sorted_successor a k s b :
  sorted (a ++ k :: s :: b) ->
  k < s /\ forall y, In y (a ++ k :: s :: b) -> k < y -> s <= y.
Proof.
  intros Hs. apply sorted_app_iff in Hs. destruct Hs as (_ & Hsb & Ha & Hk).
  rewrite Forall_forall in Ha, Hk.
  split; [apply Hk; now left|].
  intros y Hy Hlt. apply in_app_or in Hy.
  destruct Hy as [Hy|[Hy|[Hy|Hy]]].
  - apply Ha in Hy. lia.
  - lia.
  - lia.
  - inversion Hsb as [|? ? _ Hf]; subst.
    rewrite Forall_forall in Hf. apply Hf in Hy. lia.
Qed.

(** ** [FindParent] on any tree *)

Lemma subtree_refl t : subtree t t.
Proof. destruct t; simpl; auto. Qed.

Lemma FindParent_sound ref t : forall p,
  FindParent t ref = Some p -> subtree p t /\ parent_of p ref.
Proof.
  induction t as [|c l IHl x r IHr]; intros p H; [discriminate|].
  cbn [FindParent] in H.
  destruct l as [|lc ll lx lr]; [discriminate|].
  fold (FindParent (Node lc ll lx lr) ref) in H.
  destruct (N.eqb_spec (Key lx) (Key ref)) as [E|E].
  { injection H as <-. split; [apply subtree_refl|].
    left. split; [discriminate|exact E]. }
  destruct r as [|rc rl rx rr]; [discriminate|].
  fold (FindParent (Node rc rl rx rr) ref) in H.
  destruct (N.eqb_spec (Key rx) (Key ref)) as [E'|E'].
  { injection H as <-. split; [apply subtree_refl|].
    right. split; [discriminate|exact E']. }
  destruct (Key ref <? Key x).
  - destruct (IHl p H) as (Hs & Hp). split; [|exact Hp].
    right. now left.
  - destruct (IHr p H) as (Hs & Hp). split; [|exact Hp].
    right. now right.
Qed.

Lemma no_mis_branch_in_BST t ref : BST t -> ~ mis_branch t ref.
Proof.
  intros Hb [[Hlt Hin]|[Hge Hin]]; destruct t as [|c l x r];
    simpl in *; try contradiction.
  - destruct Hb as (_ & Hr & _). rewrite Forall_forall in Hr.
    apply Hr in Hin. apply N.ltb_lt in Hlt. lia.
  - destruct Hb as (Hl & _). rewrite Forall_forall in Hl.
    apply Hl in Hin. apply N.ltb_ge in Hge. lia.
Qed.

Lemma FindParent_readable ref t : forall p,
  FindParent t ref = Some p -> readable_parent p ref.
Proof.
  induction t as [|c l IHl x r IHr]; intros p H; [discriminate|].
  cbn [FindParent] in H.
  destruct l as [|lc ll lx lr]; [discriminate|].
  fold (FindParent (Node lc ll lx lr) ref) in H.
  destruct (N.eqb_spec (Key lx) (Key ref)) as [E|E].
  { injection H as <-. simpl. now left. }
  destruct r as [|rc rl rx rr]; [discriminate|].
  fold (FindParent (Node rc rl rx rr) ref) in H.
  destruct (N.eqb_spec (Key rx) (Key ref)) as [E'|E'].
  { injection H as <-. simpl. right. discriminate. }
  destruct (Key ref <? Key x); eauto.
Qed.

(** With different keys, [Insert_report] fails exactly when [FindParent]
    does: the node it returns can always be read. *)
Lemma Insert_report_None_iff root ref :
  root <> nullptr -> Key (Ref root) <> Key ref ->
  (Insert_report root ref = None <-> FindParent root ref = None).
Proof.
  intros Hn Hk. destruct root as [|c l x r]; [congruence|].
  unfold Insert_report. simpl in Hk.
  destruct (N.eqb_spec (Key x) (Key ref)) as [E|_]; [congruence|].
  destruct (FindParent (Node c l x r) ref) as [p|] eqn:Hp; [|tauto].
  apply FindParent_readable in Hp.
  split; [|discriminate]. intros H. exfalso.
  destruct p as [|pc [|lc pll plx plr] px pr]; simpl in Hp; try contradiction.
  destruct (N.eqb_spec (Key plx) (Key ref)); [discriminate|].
  destruct Hp as [?|Hpr]; [congruence|].
  destruct pr; [congruence|discriminate].
Qed.

(** ** [Free] on the heap *)

Lemma Free_heap_unchanged fuel : forall h p h',
  Free fuel h p = Some h' -> h' = h.
Proof.
  induction fuel as [|fuel IH]; intros h p h' H; [discriminate|].
  simpl in H. destruct p as [a|]; [|congruence].
  destruct (deref h a) as [c|]; [|discriminate].
  destruct (match cell_pLeft c with
            | None => Some h
            | Some _ => Free fuel h (cell_pLeft c)
            end) as [h1|] eqn:E1; [|discriminate].
  assert (h1 = h).
  { destruct (cell_pLeft c); [eauto|congruence]. }
  subst h1.
  destruct (deref h a) as [c1|]; [|discriminate].
  destruct (match cell_pRight c1 with
            | None => Some h
            | Some _ => Free fuel h (cell_pRight c1)
            end) as [h2|] eqn:E2; [|discriminate].
  assert (h2 = h).
  { destruct (cell_pRight c1); [eauto|congruence]. }
  subst h2. simpl in H. congruence.
Qed.

Lemma Free_returns t : forall fuel h p,
  rep h p t -> (size t < fuel)%nat -> Free fuel h p = Some h.
Proof.
  induction t as [|c l IHl x r IHr]; intros fuel h p Hrep Hf.
  - simpl in Hrep. subst p. destruct fuel; [lia|reflexivity].
  - destruct Hrep as (a & pl & pr & -> & Ha & Hl & Hr).
    destruct fuel as [|fuel]; [lia|]. simpl in Hf.
    simpl. rewrite Ha. simpl.
    assert (E1 : match pl with
                 | None => Some h
                 | Some _ => Free fuel h pl
                 end = Some h).
    { destruct pl; [|reflexivity]. apply IHl; [exact Hl|lia]. }
    rewrite E1, Ha. simpl.
    assert (E2 : match pr with
                 | None => Some h
                 | Some _ => Free fuel h pr
                 end = Some h).
    { destruct pr; [|reflexivity]. apply IHr; [exact Hr|lia]. }
    now rewrite E2.
Qed.

(** ** The fuel of [DeleteMin] and [DeleteRec] never runs out *)

Lemma size_toggle t : size (toggle t) = size t.
Proof. now destruct t. Qed.

Lemma size_MoveRedLeft t : size (MoveRedLeft t) = size t.
Proof.
  unfold MoveRedLeft.
  destruct (negb (is_null (pRight (ColorFlip t))) &&
            IsRed (pLeft (pRight (ColorFlip t)))).
  - rewrite size_ColorFlip, size_RotateLeft.
    destruct t as [|c l x r]; simpl; auto.
    now rewrite size_RotateRight, !size_toggle.
  - apply size_ColorFlip.
Qed.

Lemma size_MoveRedRight t : size (MoveRedRight t) = size t.
Proof.
  unfold MoveRedRight.
  destruct (negb (is_null (pLeft (ColorFlip t))) &&
            IsRed (pLeft (pLeft (ColorFlip t)))).
  - now rewrite size_ColorFlip, size_RotateRight, size_ColorFlip.
  - apply size_ColorFlip.
Qed.

Lemma size_children p :
  p <> nullptr ->
  (size (pLeft p) < size p)%nat /\ (size (pRight p) < size p)%nat.
Proof. destruct p; [congruence|]. simpl. lia. Qed.

Lemma size_nonnull p q : size p = size q -> q <> nullptr -> p <> nullptr.
Proof. destruct p, q; simpl; congruence. Qed.

Lemma size_left_descent p : size (left_descent p) = size p.
Proof.
  unfold left_descent.
  destruct (negb (IsRed (pLeft p)) && negb (IsRed (pLeft (pLeft p))));
    [apply size_MoveRedLeft|reflexivity].
Qed.

Lemma size_right_turn p : size (right_turn p) = size p.
Proof.
  unfold right_turn.
  destruct (IsRed (pLeft p)); [apply size_RotateRight|reflexivity].
Qed.

Lemma size_right_descent p : size (right_descent p) = size p.
Proof.
  unfold right_descent. cbv zeta.
  destruct (negb (IsRed (pRight (right_turn p))) &&
            negb (IsRed (pLeft (pRight (right_turn p)))));
    rewrite ?size_MoveRedRight; apply size_right_turn.
Qed.

Lemma DeleteMin_fuel_enough f : forall f' p,
  (size p <= f)%nat -> (size p <= f')%nat ->
  DeleteMin_fuel f p = DeleteMin_fuel f' p.
Proof.
  induction f as [|f IH]; intros f' p Hf Hf'.
  - destruct p; [|simpl in Hf; lia]. now destruct f'.
  - destruct f' as [|f'].
    + destruct p; [reflexivity|simpl in Hf'; lia].
    + rewrite !DeleteMin_fuel_S.
      destruct p as [|c l x r]; [reflexivity|].
      destruct (is_null (pLeft (Node c l x r))); [reflexivity|].
      cbv zeta. fold (left_descent (Node c l x r)).
      pose proof (size_left_descent (Node c l x r)) as Hs.
      destruct (size_children (left_descent (Node c l x r))) as (Hl & _).
      { apply (size_nonnull _ _ Hs). discriminate. }
      rewrite (IH f'); [reflexivity|lia|lia].
Qed.

Lemma DeleteRec_fuel_enough key f : forall f' p,
  (size p <= f)%nat -> (size p <= f')%nat ->
  DeleteRec_fuel f p key = DeleteRec_fuel f' p key.
Proof.
  induction f as [|f IH]; intros f' p Hf Hf'.
  - destruct p; [|simpl in Hf; lia]. destruct f'; [reflexivity|].
    rewrite DeleteRec_fuel_S. simpl.
    destruct (key <? 0); [reflexivity|].
    now destruct (key =? 0).
  - destruct f' as [|f'].
    + destruct p; [|simpl in Hf'; lia].
      rewrite DeleteRec_fuel_S. simpl.
      destruct (key <? 0); [reflexivity|].
      now destruct (key =? 0).
    + rewrite !DeleteRec_fuel_S.
      destruct p as [|c l x r].
      { simpl. destruct (key <? 0); [reflexivity|]. now destruct (key =? 0). }
      destruct (key <? Key (Ref (Node c l x r))).
      * destruct (negb (is_null (pLeft (Node c l x r)))); [|reflexivity].
        cbv zeta. fold (left_descent (Node c l x r)).
        pose proof (size_left_descent (Node c l x r)) as Hs.
        destruct (size_children (left_descent (Node c l x r))) as (Hl & _).
        { apply (size_nonnull _ _ Hs). discriminate. }
        rewrite (IH f'); [reflexivity|lia|lia].
      * cbv zeta. fold (right_turn (Node c l x r)).
        fold (right_descent (Node c l x r)).
        pose proof (size_right_descent (Node c l x r)) as Hs.
        destruct (size_children (right_descent (Node c l x r))) as (_ & Hr).
        { apply (size_nonnull _ _ Hs). discriminate. }
        rewrite (IH f'); [reflexivity|lia|lia].
Qed.

(** [DeleteMin] and [DeleteRec] unfold as the source reads. *)
Lemma DeleteMin_unfold p :
  DeleteMin p =
  if is_null (pLeft p) then nullptr
  else
    let p1 := left_descent p in
    FixUp (set_pLeft p1 (DeleteMin (pLeft p1))).
Proof.
  unfold DeleteMin at 1. destruct p as [|c l x r]; [reflexivity|].
  change (size (Node c l x r)) with (S (size l + size r)).
  rewrite DeleteMin_fuel_S. fold (left_descent (Node c l x r)).
  destruct (is_null (pLeft (Node c l x r))); [reflexivity|]. cbv zeta.
  pose proof (size_left_descent (Node c l x r)) as Hs.
  destruct (size_children (left_descent (Node c l x r))) as (Hl & _).
  { apply (size_nonnull _ _ Hs). discriminate. }
  change (size (Node c l x r)) with (S (size l + size r)) in Hs.
  unfold DeleteMin.
  rewrite (DeleteMin_fuel_enough (size l + size r)
             (size (pLeft (left_descent (Node c l x r)))));
    [reflexivity|lia|lia].
Qed.

Lemma DeleteRec_unfold p key :
  p <> nullptr ->
  DeleteRec p key =
  if key <? Key (Ref p) then
    if negb (is_null (pLeft p)) then
      let p1 := left_descent p in
      FixUp (set_pLeft p1 (DeleteRec (pLeft p1) key))
    else FixUp p
  else
    let p1 := right_turn p in
    if (key =? Key (Ref p1)) && is_null (pRight p1) then nullptr
    else if negb (is_null (pRight p1)) then
      let p2 := right_descent p in
      FixUp
        (if key =? Key (Ref p2)
         then let p3 := set_Ref p2 (Ref (FindMin (pRight p2))) in
              set_pRight p3 (DeleteMin (pRight p3))
         else set_pRight p2 (DeleteRec (pRight p2) key))
    else FixUp p1.
Proof.
  intros Hp. unfold DeleteRec at 1. destruct p as [|c l x r]; [congruence|].
  change (size (Node c l x r)) with (S (size l + size r)).
  rewrite DeleteRec_fuel_S.
  cbv zeta.
  fold (left_descent (Node c l x r)). fold (right_turn (Node c l x r)).
  assert (E : right_descent (Node c l x r) =
              if negb (IsRed (pRight (right_turn (Node c l x r)))) &&
                 negb (IsRed (pLeft (pRight (right_turn (Node c l x r)))))
              then MoveRedRight (right_turn (Node c l x r))
              else right_turn (Node c l x r)) by reflexivity.
  rewrite <- E. clear E.
  pose proof (size_left_descent (Node c l x r)) as Hs.
  destruct (size_children (left_descent (Node c l x r))) as (Hl & _).
  { apply (size_nonnull _ _ Hs). discriminate. }
  pose proof (size_right_descent (Node c l x r)) as Hs'.
  destruct (size_children (right_descent (Node c l x r))) as (_ & Hr).
  { apply (size_nonnull _ _ Hs'). discriminate. }
  change (size (Node c l x r)) with (S (size l + size r)) in Hs, Hs'.
  unfold DeleteRec.
  rewrite (DeleteRec_fuel_enough key (size l + size r)
             (size (pLeft (left_descent (Node c l x r))))) by lia.
  rewrite (DeleteRec_fuel_enough key (size l + size r)
             (size (pRight (right_descent (Node c l x r))))) by lia.
  reflexivity.
Qed.

(** ** The example tree *)

Lemma tree_10_5_20_15_run :
  run [OpInsert (mkRef 10); OpInsert (mkRef 5); OpInsert (mkRef 20);
       OpInsert (mkRef 15)] nullptr = Some tree_10_5_20_15.
Proof. reflexivity. Qed.

(** ** The literal scenarios of the specification, run on the model *)

(** Scenario 1: 10, 20, 30 give the root 20 with two black leaves. *)
Lemma scenario_1_insert_10_20_30 :
  run (inserts [10; 20; 30]) nullptr =
  Some (Node false (Node false nullptr (mkRef 10) nullptr) (mkRef 20)
          (Node false nullptr (mkRef 30) nullptr)).
Proof. reflexivity. Qed.

(** Scenario 2: 1 to 7 are traversed in order. *)
Lemma scenario_2_traverse_1_to_7 :
  option_map (fun t => emitted_keys (Traverse t))
    (run (inserts [1; 2; 3; 4; 5; 6; 7]) nullptr) =
  Some [1; 2; 3; 4; 5; 6; 7].
Proof. reflexivity. Qed.

(** Scenario 3: after 5, 3, 8, 1, 4, 7, 9, 2 and the deletion of 3. *)
Lemma scenario_3_delete_3 :
  option_map (fun t => emitted_keys (Traverse t))
    (run (inserts [5; 3; 8; 1; 4; 7; 9; 2] ++ [OpDelete 3]) nullptr) =
  Some [1; 2; 4; 5; 7; 8; 9].
Proof. reflexivity. Qed.

(** * The claims *)

(** C1. After every public mutating operation the invariants hold: on every
    tree the container can hold, [Insert] of any key returns and leaves a
    tree satisfying I1-I5, and so does [Delete] of any key.  I4 holds in the
    form the sentence gives it, for every red node wherever it sits: no red
    node has a red left child (nor a red right child). *)
Theorem invariants_after_every_mutation t :
  reachable t ->
  (forall ref, exists t',
      Insert t ref = Some (t', true) /\ Invariants t' /\ no_red_red t') /\
  (forall key, Invariants (Delete t key) /\ no_red_red (Delete t key)).
Proof.
  intros Hr. apply reachable_Valid in Hr. split.
  - intros ref. destruct (Insert_spec t ref Hr) as (t' & H & Hv & _).
    exists t'. split; [exact H|]. split; [now apply Valid_Invariants|].
    destruct Hv as (_ & _ & n & Hn). now apply llrb_no_red_red with n.
  - intros key. destruct (Delete_spec t key Hr) as (Hv & _).
    split; [now apply Valid_Invariants|].
    destruct Hv as (_ & _ & n & Hn). now apply llrb_no_red_red with n.
Qed.

Lemma invariants_after_every_mutation_witness :
  reachable tree_10_5_20_15 /\
  (forall ref, exists t',
      Insert tree_10_5_20_15 ref = Some (t', true) /\ Invariants t' /\
      no_red_red t') /\
  (forall key, Invariants (Delete tree_10_5_20_15 key) /\
               no_red_red (Delete tree_10_5_20_15 key)).
Proof.
  assert (H : reachable tree_10_5_20_15).
  { eexists. exact tree_10_5_20_15_run. }
  split; [exact H|].
  exact (invariants_after_every_mutation tree_10_5_20_15 H).
Defined.

(** C2. [LookUp] never returns the value bound to a key: the loop has no
    test for equality and the function returns [nullptr] whatever the tree
    and the key, also for the key 10 just inserted in an empty container. *)
Theorem LookUp_returns_nullptr :
  (forall t key, LookUp t key = None) /\
  Insert nullptr (mkRef 10) = Some (Node false nullptr (mkRef 10) nullptr, true) /\
  LookUp (Node false nullptr (mkRef 10) nullptr) 10 = None.
Proof.
  split; [|split; reflexivity].
  intros t key. unfold LookUp.
  induction t as [|c l IHl x r IHr]; simpl; [reflexivity|].
  now destruct (key <? Key x).
Qed.

(** C3. In 2-3 mode a frame of [InsertRec] on a null link returns the new red
    node; every other frame, after the equal-key overwrite or the recursive
    call, applies (a) rotate-left if the right child is red and the left is
    not, then (b) rotate-right if the left child and its left child are red,
    then (c) colour-flip if both children are red, and returns the resulting
    subtree root. *)
Theorem InsertRec_applies_triple_in_order ref :
  InsertRec nullptr ref = Node true nullptr ref nullptr /\
  forall c l x r,
    InsertRec (Node c l x r) ref =
    Spec.step_c
      (Spec.step_b
         (Spec.step_a
            (if Key ref =? Key x then Node c l ref r
             else if Key ref <? Key x then Node c (InsertRec l ref) x r
             else Node c l x (InsertRec r ref)))).
Proof.
  split; [reflexivity|]. intros c l x r.
  rewrite InsertRec_Node, Spec_step_c, Spec_step_b, Spec_step_a.
  reflexivity.
Qed.

(** C4. When a frame of [Delete] arrives at the node bearing the key with a
    non-null right child, it returns [FixUp] of that node with the contents
    of [FindMin] of the right subtree copied in and the right subtree
    replaced by its [DeleteMin], which removes exactly the node found by
    [FindMin]; the key copied is the smallest key of the tree greater than
    the deleted one; after [Delete] the invariants hold and the keys are
    those of the tree without the deleted key. *)
Theorem Delete_replaces_by_successor t key p :
  reachable t -> visits key t p -> at_bearing_node key p ->
  let p2 := right_descent p in
  let succ := Ref (FindMin (pRight p2)) in
  DeleteRec p key =
    FixUp (set_pRight (set_Ref p2 succ) (DeleteMin (pRight p2))) /\
  inorder (pRight p2) = Key succ :: inorder (DeleteMin (pRight p2)) /\
  (In (Key succ) (inorder t) /\ key < Key succ /\
   forall y, In y (inorder t) -> key < y -> Key succ <= y) /\
  Invariants (Delete t key) /\
  inorder (Delete t key) = del_list key (inorder t).
Proof.
  intros Hr Hv (Hge & Hnn & He) p2 succ.
  apply reachable_Valid in Hr.
  split; [|split; [|split]].
  2:{ destruct (visits_shape key t p Hr Hv) as (Hsp & q & Hq & Hd).
      destruct (same_below_fields _ _ (same_below_right_descent _ _ Hq))
        as (_ & Er2 & Ek2).
      destruct (same_below_fields _ _ (same_below_right_turn _ _ Hq))
        as (_ & Er1 & _).
      destruct (same_below_fields _ _ Hq) as (_ & _ & Ek).
      destruct (descent_right key q Hd) as (_ & [(n & Hn)|Hlt]).
      - now rewrite <- (same_below_inorder _ _ Hq).
      - congruence.
      - congruence.
      - rewrite <- Er2 in Hn. fold p2 in Hn.
        destruct (DeleteMin_spec (pRight p2) n Hn) as (_ & _ & ->).
        apply FindMin_key. now apply right_descent_pRight.
      - apply N.eqb_eq in He. rewrite <- Ek2 in Hlt. lia. }
  - rewrite DeleteRec_unfold by (intros ->; now apply Hnn).
    rewrite Hge. cbv zeta. fold p2.
    destruct (pRight (right_turn p)) eqn:E; [congruence|].
    cbn [is_null negb]. rewrite andb_false_r.
    unfold p2 at 1. rewrite He. fold p2.
    now destruct p2.
  - destruct (visits_segment key t p Hv) as (pre & post & Hseg).
    assert (Hp2 : p2 <> nullptr).
    { intros E. apply (right_descent_pRight p Hnn). fold p2. now rewrite E. }
    assert (Hr2 : pRight p2 <> nullptr) by now apply right_descent_pRight.
    rewrite <- (inorder_right_descent p) in Hseg. fold p2 in Hseg.
    rewrite (inorder_fields p2 Hp2), (FindMin_key (pRight p2) Hr2) in Hseg.
    fold succ in Hseg. apply N.eqb_eq in He. fold p2 in He. rewrite <- He in Hseg.
    assert (Hseg' : inorder t =
              (pre ++ inorder (pLeft p2)) ++
              key :: Key succ :: (tl (inorder (pRight p2)) ++ post)).
    { rewrite Hseg. now rewrite <- !app_assoc. }
    destruct Hr as (Hs & _). rewrite Hseg' in Hs |- *.
    split; [|now apply sorted_successor].
    apply in_or_app. right. right. now left.
  - destruct (Delete_spec t key Hr) as (Hv' & Hi).
    split; [now apply Valid_Invariants|exact Hi].
Qed.

Lemma Delete_replaces_by_successor_witness :
  reachable tree_10_5_20_15 /\
  visits 10 tree_10_5_20_15 tree_10_5_20_15 /\
  at_bearing_node 10 tree_10_5_20_15 /\
  let p2 := right_descent tree_10_5_20_15 in
  let succ := Ref (FindMin (pRight p2)) in
  DeleteRec tree_10_5_20_15 10 =
    FixUp (set_pRight (set_Ref p2 succ) (DeleteMin (pRight p2))) /\
  inorder (pRight p2) = Key succ :: inorder (DeleteMin (pRight p2)) /\
  (In (Key succ) (inorder tree_10_5_20_15) /\ 10 < Key succ /\
   forall y, In y (inorder tree_10_5_20_15) -> 10 < y -> Key succ <= y) /\
  Invariants (Delete tree_10_5_20_15 10) /\
  inorder (Delete tree_10_5_20_15 10) = del_list 10 (inorder tree_10_5_20_15).
Proof.
  assert (H : reachable tree_10_5_20_15).
  { eexists. exact tree_10_5_20_15_run. }
  assert (Hv : visits 10 tree_10_5_20_15 tree_10_5_20_15).
  { apply visits_root. discriminate. }
  assert (Hb : at_bearing_node 10 tree_10_5_20_15).
  { split; [reflexivity|]. split; [discriminate|reflexivity]. }
  split; [exact H|]. split; [exact Hv|]. split; [exact Hb|].
  exact (Delete_replaces_by_successor tree_10_5_20_15 10 tree_10_5_20_15 H Hv Hb).
Defined.

(** Scenario 4 of the specification: after the insertion of 50, 25, 75, 10,
    30, 60, 80, 5, 15, 27, 35 the deletion of 50 meets the node bearing 50
    below the root and puts 60 in it. *)
Lemma scenario_4_delete_50 :
  exists t,
    run (inserts [50; 25; 75; 10; 30; 60; 80; 5; 15; 27; 35]) nullptr = Some t /\
    let p := pRight (right_descent t) in
    visits 50 t p /\ at_bearing_node 50 p /\
    Key (Ref (FindMin (pRight (right_descent p)))) = 60 /\
    inorder (Delete t 50) = [5; 10; 15; 25; 27; 30; 35; 60; 75; 80].
Proof.
  eexists. split; [reflexivity|]. cbv zeta.
  split.
  { apply visits_right; [apply visits_root; discriminate|reflexivity
                        |discriminate|reflexivity]. }
  split.
  { split; [reflexivity|]. split; [discriminate|reflexivity]. }
  split; reflexivity.
Qed.

(** C5 (as amended). [Delete] returns [void]; for a key that is not in the
    tree it leaves the sequence of keys unchanged (the shape and the colours
    may change), and on the empty tree it does nothing. *)
Theorem Delete_absent_keeps_keys t key :
  reachable t -> ~ In key (inorder t) ->
  inorder (Delete t key) = inorder t /\ Delete nullptr key = nullptr.
Proof.
  intros Hr Hn. apply reachable_Valid in Hr.
  destruct (Delete_spec t key Hr) as (_ & ->).
  split; [now apply del_list_absent|reflexivity].
Qed.

Lemma Delete_absent_keeps_keys_witness :
  reachable tree_10_5_20_15 /\ ~ In 3 (inorder tree_10_5_20_15) /\
  inorder (Delete tree_10_5_20_15 3) = inorder tree_10_5_20_15 /\
  Delete nullptr 3 = nullptr.
Proof.
  assert (H : reachable tree_10_5_20_15).
  { eexists. exact tree_10_5_20_15_run. }
  assert (Hn : ~ In 3 (inorder tree_10_5_20_15)).
  { simpl. intros [E|[E|[E|[E|E]]]]; try discriminate E. exact E. }
  split; [exact H|]. split; [exact Hn|].
  exact (Delete_absent_keeps_keys tree_10_5_20_15 3 H Hn).
Defined.

(** C5 as stated fails: deleting the absent key 3 from the tree built by
    inserting 10, 5, 20, 15 gives a tree of another shape. *)
Lemma Delete_absent_changes_tree :
  reachable tree_10_5_20_15 /\ ~ In 3 (inorder tree_10_5_20_15) /\
  Delete tree_10_5_20_15 3 =
    Node false
      (Node false (Node true nullptr (mkRef 5) nullptr) (mkRef 10) nullptr)
      (mkRef 15) (Node false nullptr (mkRef 20) nullptr) /\
  Delete tree_10_5_20_15 3 <> tree_10_5_20_15.
Proof.
  split; [eexists; exact tree_10_5_20_15_run|].
  split.
  { simpl. intros [E|[E|[E|[E|E]]]]; try discriminate E. exact E. }
  split; [reflexivity|].
  intros E. vm_compute in E. discriminate E.
Qed.

(** C6. [Traverse] emits the keys in in-order; after any sequence of
    operations this sequence is strictly ascending and holds exactly the keys
    inserted and not subsequently deleted. *)
Theorem Traverse_sorted_live_keys ops :
  exists t, run ops nullptr = Some t /\
    emitted_keys (Traverse t) = inorder t /\
    StronglySorted N.lt (emitted_keys (Traverse t)) /\
    (forall k, In k (emitted_keys (Traverse t)) <-> In k (live_keys ops [])).
Proof.
  destruct (run_Valid ops nullptr [] Valid_nullptr) as (t & H & Hv & Hk).
  { reflexivity. }
  exists t. rewrite Traverse_keys.
  split; [exact H|]. split; [reflexivity|]. split; [apply Hv|exact Hk].
Qed.

(** C7. Inserting the same key a second time leaves the tree of the first
    insertion as it is: the second call overwrites [Ref] with an equal
    value, returns a tree equal to the one it received, calls [NewNode] not
    once, and the number of keys is unchanged.  The same holds for any key
    already bound in a tree the container can hold. *)
Theorem Insert_twice_same_tree t ref :
  reachable t ->
  (In (Key ref) (inorder t) ->
   Insert t ref = Some (t, true) /\ InsertRec_news t ref = 0%nat) /\
  exists t1 t2,
    Insert t ref = Some (t1, true) /\
    Insert t1 ref = Some (t2, true) /\
    t2 = t1 /\
    InsertRec_news t1 ref = 0%nat /\
    length (inorder t2) = length (inorder t1).
Proof.
  intros Hr. apply reachable_Valid in Hr.
  split; [now apply Insert_bound|].
  destruct (Insert_spec t ref Hr) as (t1 & H1 & Hv1 & Hi).
  exists t1, t1. split; [exact H1|].
  assert (Hin : In (Key ref) (inorder t1)).
  { rewrite Hi. apply In_ins_list. now left. }
  destruct (Insert_bound t1 ref Hv1 Hin) as (H2 & Hn).
  split; [exact H2|]. split; [reflexivity|]. split; [exact Hn|reflexivity].
Qed.

Lemma Insert_twice_same_tree_witness :
  reachable tree_10_5_20_15 /\
  (In (Key (mkRef 12)) (inorder tree_10_5_20_15) ->
   Insert tree_10_5_20_15 (mkRef 12) = Some (tree_10_5_20_15, true) /\
   InsertRec_news tree_10_5_20_15 (mkRef 12) = 0%nat) /\
  exists t1 t2,
    Insert tree_10_5_20_15 (mkRef 12) = Some (t1, true) /\
    Insert t1 (mkRef 12) = Some (t2, true) /\
    t2 = t1 /\
    InsertRec_news t1 (mkRef 12) = 0%nat /\
    length (inorder t2) = length (inorder t1).
Proof.
  assert (H : reachable tree_10_5_20_15).
  { eexists. exact tree_10_5_20_15_run. }
  split; [exact H|].
  exact (Insert_twice_same_tree tree_10_5_20_15 (mkRef 12) H).
Defined.

(** C8 (as amended). [Insert] returns [true] on every call, for a new key
    and for a key already bound alike; it returns no prior value. *)
Theorem Insert_returns_true t ref :
  reachable t -> exists t', Insert t ref = Some (t', true).
Proof.
  intros Hr. apply reachable_Valid in Hr.
  destruct (Insert_spec t ref Hr) as (t' & H & _). eauto.
Qed.

Lemma Insert_returns_true_witness :
  reachable tree_10_5_20_15 /\
  exists t', Insert tree_10_5_20_15 (mkRef 15) = Some (t', true).
Proof.
  assert (H : reachable tree_10_5_20_15).
  { eexists. exact tree_10_5_20_15_run. }
  split; [exact H|].
  exact (Insert_returns_true tree_10_5_20_15 (mkRef 15) H).
Defined.

(** C8 as stated fails: the first insertion of 42 (a new key) and the second
    (a replacement) return the same value. *)
Lemma Insert_indicator_is_constant :
  let t1 := Node false nullptr (mkRef 42) nullptr in
  ~ In 42 (inorder nullptr) /\ Insert nullptr (mkRef 42) = Some (t1, true) /\
  In 42 (inorder t1) /\ Insert t1 (mkRef 42) = Some (t1, true).
Proof.
  simpl. split; [tauto|]. split; [reflexivity|]. split; [now left|reflexivity].
Qed.

(** C9. [FreeAll] sets the root link to null but releases no node: [Free]
    sets its local pointer to [nullptr] before [delete], so the heap is left
    as it was.  For the container holding the single key 10 at address 1 the
    specification asks for the release of address 1; the node is still
    allocated afterwards. *)
Theorem FreeAll_releases_no_node :
  (forall t h p,
      rep h p t ->
      FreeAll (S (size t)) (mkContainer h p) = Some (mkContainer h None)) /\
  (forall fuel s s',
      FreeAll fuel s = Some s' -> m_heap s' = m_heap s /\ m_pRoot s' = None) /\
  let h := [(1, mkCell (mkRef 10) false None None)] in
  rep h (Some 1) (Node false nullptr (mkRef 10) nullptr) /\
  post_order 2 h (Some 1) = [1] /\
  FreeAll 2 (mkContainer h (Some 1)) = Some (mkContainer h None) /\
  deref h 1 <> None.
Proof.
  split; [|split].
  - intros t h p Hrep. unfold FreeAll. simpl m_heap. simpl m_pRoot.
    rewrite (Free_returns t (S (size t)) h p Hrep); [reflexivity|lia].
  - intros fuel [h p] s'. unfold FreeAll. simpl.
    destruct (Free fuel h p) as [h'|] eqn:E; [|discriminate].
    apply Free_heap_unchanged in E. subst h'.
    intros H. injection H as <-. auto.
  - simpl. split; [|split; [reflexivity|split; [reflexivity|discriminate]]].
    exists 1, None, None. auto.
Qed.

(** C10 (as amended). [FindParent] reads the keys of both children without
    testing the pointers: on the reachable one-node tree and the key 5 it
    dereferences a null link.  It does not mis-branch: when it returns, the
    node returned is a node of the tree and the parent of a node bearing the
    key, and on a search tree its test never sends the search away from the
    key.  [Insert] calls it exactly when the key inserted differs from the
    key of the root after rebalancing: with equal keys [Insert] returns
    whatever [FindParent] would do, with different keys [Insert] hits a null
    pointer exactly when [FindParent] does, which on the trees the container
    can hold never happens. *)
Theorem FindParent_unsafe_but_right_branching :
  (reachable (Node false nullptr (mkRef 10) nullptr) /\
   FindParent (Node false nullptr (mkRef 10) nullptr) (mkRef 5) = None) /\
  (forall t ref p,
      FindParent t ref = Some p -> subtree p t /\ parent_of p ref) /\
  (forall t ref, BST t -> ~ mis_branch t ref) /\
  (forall t ref,
      let root := set_black (InsertRec t ref) in
      (Key (Ref root) = Key ref -> Insert t ref = Some (root, true)) /\
      (Key (Ref root) <> Key ref ->
       (Insert t ref = None <-> FindParent root ref = None))) /\
  (forall t ref, reachable t -> Insert t ref <> None).
Proof.
  split; [|split; [|split; [|split]]].
  - split; [|reflexivity]. exists [OpInsert (mkRef 10)]. reflexivity.
  - intros t ref p. apply FindParent_sound.
  - intros t ref. apply no_mis_branch_in_BST.
  - intros t ref root.
    assert (Hn : root <> nullptr).
    { unfold root. pose proof (InsertRec_nonnull t ref).
      destruct (InsertRec t ref); [congruence|discriminate]. }
    unfold Insert. fold root. split.
    + intros E. destruct root as [|c l x r]; [congruence|].
      unfold Insert_report. simpl in E. apply N.eqb_eq in E. now rewrite E.
    + intros E. rewrite <- (Insert_report_None_iff root ref Hn E).
      destruct (Insert_report root ref); split; congruence.
  - intros t ref Hr. apply reachable_Valid in Hr.
    destruct (Insert_spec t ref Hr) as (t' & -> & _). discriminate.
Qed.

(** C10 as stated fails on its second point: on no search tree, for no key,
    does the test of [FindParent] send the search to the side that does not
    hold the key. *)
Lemma FindParent_never_mis_branches :
  ~ exists t ref, BST t /\ mis_branch t ref.
Proof.
  intros (t & ref & Hb & Hm). exact (no_mis_branch_in_BST t ref Hb Hm).
Qed.

(** * Further properties of the code *)

(** ** Helper lemmas *)

Lemma sorted_ext (a : list N) : forall b,
  sorted a -> sorted b -> (forall k, In k a <-> In k b) -> a = b.
Proof.
  unfold sorted.
  induction a as [|x a IH]; intros b Ha Hb Hk.
  - destruct b as [|y b]; [reflexivity|].
    exfalso. apply (Hk y). now left.
  - destruct b as [|y b].
    { exfalso. apply (Hk x). now left. }
    inversion Ha as [|? ? Ha' Hxa]; subst.
    inversion Hb as [|? ? Hb' Hyb]; subst.
    rewrite Forall_forall in Hxa, Hyb.
    assert (x = y).
    { assert (Hx : In x (y :: b)) by (apply Hk; now left).
      assert (Hy : In y (x :: a)) by (apply Hk; now left).
      destruct Hx as [->|Hx]; [reflexivity|].
      destruct Hy as [->|Hy]; [reflexivity|].
      apply Hyb in Hx. apply Hxa in Hy. lia. }
    subst y. f_equal. apply IH; auto.
    intros k. split; intros Hin.
    + assert (H : In k (x :: b)) by (apply Hk; now right).
      destruct H as [->|H]; [|exact H]. apply Hxa in Hin. lia.
    + assert (H : In k (x :: a)) by (apply Hk; now right).
      destruct H as [->|H]; [|exact H]. apply Hyb in Hin. lia.
Qed.

Lemma length_inorder t : length (inorder t) = size t.
Proof.
  induction t as [|c l IHl x r IHr]; [reflexivity|].
  simpl. rewrite length_app. simpl. lia.
Qed.

Lemma sorted_not_In_head x l : sorted (x :: l) -> ~ In x l.
Proof.
  intros H Hin. inversion H as [|? ? _ Hf]; subst.
  rewrite Forall_forall in Hf. apply Hf in Hin. lia.
Qed.

Lemma length_ins_list k l :
  sorted l ->
  length (ins_list k l) =
  if in_dec N.eq_dec k l then length l else S (length l).
Proof.
  induction l as [|y l IH]; intros Hs; [reflexivity|].
  pose proof (sorted_not_In_head _ _ Hs) as Hy.
  inversion Hs as [|? ? Hs' Hf]; subst. rewrite Forall_forall in Hf.
  specialize (IH Hs'). simpl ins_list.
  destruct (N.ltb_spec k y) as [Hlt|Hge].
  - destruct (in_dec N.eq_dec k (y :: l)) as [[E|Hin]|_]; [lia| |reflexivity].
    apply Hf in Hin. lia.
  - destruct (N.eqb_spec k y) as [->|Hne].
    + destruct (in_dec N.eq_dec y (y :: l)) as [_|Hn]; [reflexivity|].
      exfalso. apply Hn. now left.
    + cbn [length]. rewrite IH.
      assert (Hiff : In k (y :: l) <-> In k l) by (simpl; intuition congruence).
      destruct (in_dec N.eq_dec k l), (in_dec N.eq_dec k (y :: l));
        try reflexivity; exfalso; tauto.
Qed.

Lemma length_del_list k l :
  sorted l ->
  length (del_list k l) =
  if in_dec N.eq_dec k l then pred (length l) else length l.
Proof.
  induction l as [|y l IH]; intros Hs; [reflexivity|].
  pose proof (sorted_not_In_head _ _ Hs) as Hy.
  inversion Hs as [|? ? Hs' Hf]; subst.
  specialize (IH Hs'). unfold del_list in *. simpl filter.
  destruct (N.eqb_spec y k) as [->|Hne]; simpl negb; cbv iota.
  - fold (del_list k l). rewrite (del_list_absent k l Hy).
    destruct (in_dec N.eq_dec k (k :: l)) as [_|Hn]; [reflexivity|].
    exfalso. apply Hn. now left.
  - cbn [length]. rewrite IH.
    assert (Hiff : In k (y :: l) <-> In k l) by (simpl; intuition congruence).
    destruct (in_dec N.eq_dec k l) as [Hin|Hn], (in_dec N.eq_dec k (y :: l));
      try reflexivity; try (exfalso; tauto).
    destruct l; [contradiction|reflexivity].
Qed.

Lemma InsertRec_news_absent ref t :
  sorted (inorder t) ->
  InsertRec_news t ref =
  if in_dec N.eq_dec (Key ref) (inorder t) then 0%nat else 1%nat.
Proof.
  induction t as [|c l IHl x r IHr]; intros Hs; [reflexivity|].
  destruct (sorted_node _ _ _ _ Hs) as (Hsl & Hsr & Hlx & Hxr).
  rewrite Forall_forall in Hlx, Hxr.
  simpl InsertRec_news. simpl inorder.
  destruct (N.eqb_spec (Key ref) (Key x)) as [E|E].
  - destruct (in_dec N.eq_dec (Key ref) (inorder l ++ Key x :: inorder r))
      as [_|Hn]; [reflexivity|].
    exfalso. apply Hn. apply in_or_app. right. left. congruence.
  - destruct (N.ltb_spec (Key ref) (Key x)) as [Hlt|Hge].
    + rewrite (IHl Hsl).
      assert (Hiff : In (Key ref) (inorder l ++ Key x :: inorder r) <->
                     In (Key ref) (inorder l)).
      { rewrite in_app_iff. simpl. split; [|tauto].
        intros [H|[H|H]]; [exact H|congruence|]. apply Hxr in H. lia. }
      destruct (in_dec N.eq_dec (Key ref) (inorder l)),
               (in_dec N.eq_dec (Key ref) (inorder l ++ Key x :: inorder r));
        try reflexivity; exfalso; tauto.
    + rewrite (IHr Hsr).
      assert (Hiff : In (Key ref) (inorder l ++ Key x :: inorder r) <->
                     In (Key ref) (inorder r)).
      { rewrite in_app_iff. simpl. split; [|tauto].
        intros [H|[H|H]]; [|congruence|exact H]. apply Hlx in H. lia. }
      destruct (in_dec N.eq_dec (Key ref) (inorder r)),
               (in_dec N.eq_dec (Key ref) (inorder l ++ Key x :: inorder r));
        try reflexivity; exfalso; tauto.
Qed.

Lemma inorder_nil t : inorder t = [] -> t = nullptr.
Proof.
  destruct t; [reflexivity|]. intros H. exfalso.
  revert H. apply inorder_nonnull. discriminate.
Qed.

Lemma tree_10_5_20_15_reachable : reachable tree_10_5_20_15.
Proof. eexists. exact tree_10_5_20_15_run. Qed.

(** ** Keys and nodes after [Insert] and [Delete] *)

(** X1. [Insert] binds the key and keeps every other key: the in-order keys
    of the new tree are those of the old one with the key put at its place
    (replacing an equal key). *)
Theorem Insert_keys t ref :
  reachable t ->
  exists t', Insert t ref = Some (t', true) /\
    inorder t' = ins_list (Key ref) (inorder t) /\
    (forall k, In k (inorder t') <-> k = Key ref \/ In k (inorder t)).
Proof.
  intros Hr. apply reachable_Valid in Hr.
  destruct (Insert_spec t ref Hr) as (t' & H & _ & Hi).
  exists t'. split; [exact H|]. split; [exact Hi|].
  intros k. rewrite Hi. apply In_ins_list.
Qed.

Lemma Insert_keys_witness :
  reachable tree_10_5_20_15 /\
  exists t', Insert tree_10_5_20_15 (mkRef 12) = Some (t', true) /\
    inorder t' = ins_list (Key (mkRef 12)) (inorder tree_10_5_20_15) /\
    (forall k, In k (inorder t') <->
               k = Key (mkRef 12) \/ In k (inorder tree_10_5_20_15)).
Proof.
  split; [exact tree_10_5_20_15_reachable|].
  exact (Insert_keys tree_10_5_20_15 (mkRef 12) tree_10_5_20_15_reachable).
Defined.

(** X2. [Delete] removes the key and nothing else: the key is no longer in
    the tree and every other key is kept, in the same order. *)
Theorem Delete_keys t key :
  reachable t ->
  inorder (Delete t key) = del_list key (inorder t) /\
  ~ In key (inorder (Delete t key)) /\
  (forall k, k <> key -> (In k (inorder (Delete t key)) <-> In k (inorder t))).
Proof.
  intros Hr. apply reachable_Valid in Hr.
  destruct (Delete_spec t key Hr) as (_ & Hi).
  split; [exact Hi|]. rewrite Hi. split.
  - intros H. apply In_del_list in H. tauto.
  - intros k Hk. rewrite In_del_list. tauto.
Qed.

Lemma Delete_keys_witness :
  reachable tree_10_5_20_15 /\
  inorder (Delete tree_10_5_20_15 20) = del_list 20 (inorder tree_10_5_20_15) /\
  ~ In 20 (inorder (Delete tree_10_5_20_15 20)) /\
  (forall k, k <> 20 -> (In k (inorder (Delete tree_10_5_20_15 20)) <->
                         In k (inorder tree_10_5_20_15))).
Proof.
  split; [exact tree_10_5_20_15_reachable|].
  exact (Delete_keys tree_10_5_20_15 20 tree_10_5_20_15_reachable).
Defined.

(** X3. Inserting a key that is not in the tree and deleting it again gives
    back the keys of the tree, in order. *)
Theorem Insert_Delete_round_trip t ref :
  reachable t -> ~ In (Key ref) (inorder t) ->
  exists t1, Insert t ref = Some (t1, true) /\
             inorder (Delete t1 (Key ref)) = inorder t.
Proof.
  intros Hr Hn. apply reachable_Valid in Hr.
  destruct (Insert_spec t ref Hr) as (t1 & H & Hv1 & Hi).
  exists t1. split; [exact H|].
  destruct (Delete_spec t1 (Key ref) Hv1) as ((Hs & _) & Hd).
  apply sorted_ext; [exact Hs|apply Hr|].
  intros k. rewrite Hd, In_del_list, Hi, In_ins_list.
  split; [tauto|]. intros Hk. split; [now right|]. congruence.
Qed.

Lemma Insert_Delete_round_trip_witness :
  reachable tree_10_5_20_15 /\ ~ In (Key (mkRef 12)) (inorder tree_10_5_20_15) /\
  exists t1, Insert tree_10_5_20_15 (mkRef 12) = Some (t1, true) /\
             inorder (Delete t1 (Key (mkRef 12))) = inorder tree_10_5_20_15.
Proof.
  assert (Hn : ~ In (Key (mkRef 12)) (inorder tree_10_5_20_15)).
  { simpl. intros [E|[E|[E|[E|E]]]]; try discriminate E. exact E. }
  split; [exact tree_10_5_20_15_reachable|]. split; [exact Hn|].
  exact (Insert_Delete_round_trip tree_10_5_20_15 (mkRef 12)
           tree_10_5_20_15_reachable Hn).
Defined.

(** X4. [Delete] leaves the container empty (null root) exactly when the
    tree held no key other than the deleted one. *)
Theorem Delete_empties_iff t key :
  reachable t ->
  (Delete t key = nullptr <-> forall k, In k (inorder t) -> k = key).
Proof.
  intros Hr. apply reachable_Valid in Hr.
  destruct (Delete_spec t key Hr) as (_ & Hi).
  split.
  - intros E k Hk. destruct (N.eq_dec k key) as [|Hne]; [assumption|].
    exfalso. assert (H : In k (inorder (Delete t key))).
    { rewrite Hi. apply In_del_list. tauto. }
    now rewrite E in H.
  - intros Hall. apply inorder_nil. rewrite Hi.
    destruct (del_list key (inorder t)) as [|k l] eqn:E; [reflexivity|].
    exfalso. assert (H : In k (del_list key (inorder t))) by (rewrite E; now left).
    apply In_del_list in H. destruct H as (H & Hne). auto.
Qed.

Lemma Delete_empties_iff_witness :
  reachable (Node false nullptr (mkRef 7) nullptr) /\
  (Delete (Node false nullptr (mkRef 7) nullptr) 7 = nullptr <->
   forall k, In k (inorder (Node false nullptr (mkRef 7) nullptr)) -> k = 7).
Proof.
  assert (H : reachable (Node false nullptr (mkRef 7) nullptr)).
  { exists [OpInsert (mkRef 7)]. reflexivity. }
  split; [exact H|].
  exact (Delete_empties_iff (Node false nullptr (mkRef 7) nullptr) 7 H).
Defined.

(** X5. [Insert] calls [NewNode] once when the key is new and not at all
    when it is bound, and the number of nodes grows accordingly. *)
Theorem Insert_node_count t ref :
  reachable t ->
  exists t', Insert t ref = Some (t', true) /\
    InsertRec_news t ref =
      (if in_dec N.eq_dec (Key ref) (inorder t) then 0 else 1)%nat /\
    size t' = (size t + InsertRec_news t ref)%nat.
Proof.
  intros Hr. apply reachable_Valid in Hr.
  destruct (Insert_spec t ref Hr) as (t' & H & _ & Hi).
  exists t'. split; [exact H|].
  destruct Hr as (Hs & _).
  split; [now apply InsertRec_news_absent|].
  rewrite <- !length_inorder, Hi, length_ins_list, InsertRec_news_absent by exact Hs.
  destruct (in_dec N.eq_dec (Key ref) (inorder t)); lia.
Qed.

Lemma Insert_node_count_witness :
  reachable tree_10_5_20_15 /\
  exists t', Insert tree_10_5_20_15 (mkRef 12) = Some (t', true) /\
    InsertRec_news tree_10_5_20_15 (mkRef 12) =
      (if in_dec N.eq_dec (Key (mkRef 12)) (inorder tree_10_5_20_15)
       then 0 else 1)%nat /\
    size t' = (size tree_10_5_20_15 + InsertRec_news tree_10_5_20_15 (mkRef 12))%nat.
Proof.
  split; [exact tree_10_5_20_15_reachable|].
  exact (Insert_node_count tree_10_5_20_15 (mkRef 12) tree_10_5_20_15_reachable).
Defined.

(** X6. [Delete] takes one node out of the tree when the key is bound and
    none when it is not. *)
Theorem Delete_node_count t key :
  reachable t ->
  size (Delete t key) =
  if in_dec N.eq_dec key (inorder t) then pred (size t) else size t.
Proof.
  intros Hr. apply reachable_Valid in Hr.
  destruct (Delete_spec t key Hr) as (_ & Hi).
  rewrite <- !length_inorder, Hi. apply length_del_list. apply Hr.
Qed.

Lemma Delete_node_count_witness :
  reachable tree_10_5_20_15 /\
  size (Delete tree_10_5_20_15 20) =
  if in_dec N.eq_dec 20 (inorder tree_10_5_20_15)
  then pred (size tree_10_5_20_15) else size tree_10_5_20_15.
Proof.
  split; [exact tree_10_5_20_15_reachable|].
  exact (Delete_node_count tree_10_5_20_15 20 tree_10_5_20_15_reachable).
Defined.

(** X7. The keys of the container after a sequence of operations depend only
    on which keys are live, not on the order of the operations nor on the
    keys inserted and deleted meanwhile: two sequences with the same live
    keys give trees with the same in-order keys (the shapes may differ). *)
Theorem keys_depend_on_live_keys_only ops1 ops2 :
  (forall k, In k (live_keys ops1 []) <-> In k (live_keys ops2 [])) ->
  exists t1 t2,
    run ops1 nullptr = Some t1 /\ run ops2 nullptr = Some t2 /\
    inorder t1 = inorder t2 /\
    emitted_keys (Traverse t1) = emitted_keys (Traverse t2).
Proof.
  intros Hlive.
  destruct (run_Valid ops1 nullptr [] Valid_nullptr) as (t1 & H1 & Hv1 & Hk1);
    [reflexivity|].
  destruct (run_Valid ops2 nullptr [] Valid_nullptr) as (t2 & H2 & Hv2 & Hk2);
    [reflexivity|].
  exists t1, t2. split; [exact H1|]. split; [exact H2|].
  assert (E : inorder t1 = inorder t2).
  { apply sorted_ext; [apply Hv1|apply Hv2|].
    intros k. now rewrite Hk1, Hk2, Hlive. }
  split; [exact E|]. now rewrite !Traverse_keys.
Qed.

Lemma keys_depend_on_live_keys_only_witness :
  (forall k, In k (live_keys [OpInsert (mkRef 1); OpInsert (mkRef 2)] []) <->
             In k (live_keys [OpInsert (mkRef 3); OpInsert (mkRef 2);
                              OpDelete 3; OpInsert (mkRef 1)] [])) /\
  exists t1 t2,
    run [OpInsert (mkRef 1); OpInsert (mkRef 2)] nullptr = Some t1 /\
    run [OpInsert (mkRef 3); OpInsert (mkRef 2); OpDelete 3; OpInsert (mkRef 1)]
      nullptr = Some t2 /\
    inorder t1 = inorder t2 /\
    emitted_keys (Traverse t1) = emitted_keys (Traverse t2).
Proof.
  assert (H : forall k,
             In k (live_keys [OpInsert (mkRef 1); OpInsert (mkRef 2)] []) <->
             In k (live_keys [OpInsert (mkRef 3); OpInsert (mkRef 2);
                              OpDelete 3; OpInsert (mkRef 1)] [])).
  { intros k. simpl. tauto. }
  split; [exact H|].
  exact (keys_depend_on_live_keys_only _ _ H).
Defined.

(** ** The shape of the trees the container holds *)

Lemma llrb_no_red_right t : forall n, llrb t n -> no_red_right t.
Proof.
  induction t as [|c l IHl x r IHr]; intros n H; simpl; auto.
  destruct (llrb_children _ _ _ _ _ H) as (m & Hl & Hr).
  split; [|split; eauto].
  destruct c; simpl in H; [tauto|]. destruct n; [contradiction|tauto].
Qed.

(** X8. The container always holds a 2-3 tree: after any sequence of
    operations no node has a red right child (so there is no 4-node, and a
    red link always leans left) and no red node has a red child. *)
Theorem reachable_tree_is_2_3 t :
  reachable t -> no_red_right t /\ no_red_red t.
Proof.
  intros Hr. apply reachable_Valid in Hr. destruct Hr as (_ & _ & n & H).
  split; [now apply llrb_no_red_right with n|now apply llrb_no_red_red with n].
Qed.

Lemma reachable_tree_is_2_3_witness :
  reachable tree_10_5_20_15 /\
  no_red_right tree_10_5_20_15 /\ no_red_red tree_10_5_20_15.
Proof.
  split; [exact tree_10_5_20_15_reachable|].
  exact (reachable_tree_is_2_3 tree_10_5_20_15 tree_10_5_20_15_reachable).
Defined.

Lemma llrb_size t : forall n, llrb t n -> (2 ^ n <= size t + 1)%nat.
Proof.
  induction t as [|c l IHl x r IHr]; intros n H.
  - simpl in H. subst. simpl. lia.
  - destruct c; simpl in H.
    + destruct H as (_ & _ & Hl & Hr).
      specialize (IHl n Hl). specialize (IHr n Hr). simpl. lia.
    + destruct n as [|m]; [contradiction|]. destruct H as (_ & Hl & Hr).
      specialize (IHl m Hl). specialize (IHr m Hr).
      simpl size. rewrite Nat.pow_succ_r'. lia.
Qed.

Lemma llrb_height t : forall n,
  llrb t n -> (height t <= 2 * n + (if IsRed t then 1 else 0))%nat.
Proof.
  induction t as [|c l IHl x r IHr]; intros n H.
  - simpl. lia.
  - destruct c; simpl in H.
    + destruct H as (El & Er & Hl & Hr).
      specialize (IHl n Hl). specialize (IHr n Hr).
      rewrite El in IHl. rewrite Er in IHr. simpl. lia.
    + destruct n as [|m]; [contradiction|]. destruct H as (Er & Hl & Hr).
      specialize (IHl m Hl). specialize (IHr m Hr).
      rewrite Er in IHr. simpl. destruct (IsRed l); lia.
Qed.

(** X9. The trees of the container are shallow: with [n] nodes the longest
    path from the root has at most 2 log2 (n + 1) nodes, stated without
    logarithm as 2 ^ height <= (n + 1) ^ 2. *)
Theorem reachable_tree_height t :
  reachable t -> (2 ^ height t <= (size t + 1) * (size t + 1))%nat.
Proof.
  intros Hr. apply reachable_Valid in Hr. destruct Hr as (_ & Ec & n & H).
  pose proof (llrb_height t n H) as Hh. rewrite Ec in Hh.
  pose proof (llrb_size t n H) as Hsz.
  apply Nat.le_trans with (2 ^ (2 * n))%nat.
  - apply Nat.pow_le_mono_r; lia.
  - replace (2 * n)%nat with (n + n)%nat by lia.
    rewrite Nat.pow_add_r. now apply Nat.mul_le_mono.
Qed.

Lemma reachable_tree_height_witness :
  reachable tree_10_5_20_15 /\
  (2 ^ height tree_10_5_20_15 <=
   (size tree_10_5_20_15 + 1) * (size tree_10_5_20_15 + 1))%nat.
Proof.
  split; [exact tree_10_5_20_15_reachable|].
  exact (reachable_tree_height tree_10_5_20_15 tree_10_5_20_15_reachable).
Defined.

(** ** The rewriting primitives on any tree *)

Lemma size_FixUp t : size (FixUp t) = size t.
Proof.
  unfold FixUp.
  repeat match goal with
         | |- context [if ?b then _ else _] => destruct b
         end;
    now rewrite ?size_ColorFlip, ?size_RotateRight, ?size_RotateLeft.
Qed.

(** X10. On the nodes on which the source can run them, [RotateLeft] (right
    child not null), [RotateRight] (left child not null), and [ColorFlip],
    [FixUp], [MoveRedLeft] and [MoveRedRight] (node not null) keep every key
    at its place in the in-order sequence and keep the number of nodes: they
    only change links and colours. *)
Theorem primitives_keep_keys t :
  t <> nullptr ->
  (pRight t <> nullptr ->
   inorder (RotateLeft t) = inorder t /\ size (RotateLeft t) = size t) /\
  (pLeft t <> nullptr ->
   inorder (RotateRight t) = inorder t /\ size (RotateRight t) = size t) /\
  (inorder (ColorFlip t) = inorder t /\ size (ColorFlip t) = size t) /\
  (inorder (FixUp t) = inorder t /\ size (FixUp t) = size t) /\
  (inorder (MoveRedLeft t) = inorder t /\ size (MoveRedLeft t) = size t) /\
  (inorder (MoveRedRight t) = inorder t /\ size (MoveRedRight t) = size t).
Proof.
  intros _. repeat split.
  - apply inorder_RotateLeft.
  - apply size_RotateLeft.
  - apply inorder_RotateRight.
  - apply size_RotateRight.
  - apply inorder_ColorFlip.
  - apply size_ColorFlip.
  - apply inorder_FixUp.
  - apply size_FixUp.
  - apply inorder_MoveRedLeft.
  - apply size_MoveRedLeft.
  - apply inorder_MoveRedRight.
  - apply size_MoveRedRight.
Qed.

Lemma primitives_keep_keys_witness :
  tree_10_5_20_15 <> nullptr /\
  pRight tree_10_5_20_15 <> nullptr /\ pLeft tree_10_5_20_15 <> nullptr /\
  (inorder (RotateLeft tree_10_5_20_15) = inorder tree_10_5_20_15 /\
   size (RotateLeft tree_10_5_20_15) = size tree_10_5_20_15) /\
  (inorder (RotateRight tree_10_5_20_15) = inorder tree_10_5_20_15 /\
   size (RotateRight tree_10_5_20_15) = size tree_10_5_20_15) /\
  (inorder (ColorFlip tree_10_5_20_15) = inorder tree_10_5_20_15 /\
   size (ColorFlip tree_10_5_20_15) = size tree_10_5_20_15) /\
  (inorder (FixUp tree_10_5_20_15) = inorder tree_10_5_20_15 /\
   size (FixUp tree_10_5_20_15) = size tree_10_5_20_15) /\
  (inorder (MoveRedLeft tree_10_5_20_15) = inorder tree_10_5_20_15 /\
   size (MoveRedLeft tree_10_5_20_15) = size tree_10_5_20_15) /\
  (inorder (MoveRedRight tree_10_5_20_15) = inorder tree_10_5_20_15 /\
   size (MoveRedRight tree_10_5_20_15) = size tree_10_5_20_15).
Proof.
  assert (Hn : tree_10_5_20_15 <> nullptr) by discriminate.
  assert (Hr : pRight tree_10_5_20_15 <> nullptr) by discriminate.
  assert (Hl : pLeft tree_10_5_20_15 <> nullptr) by discriminate.
  destruct (primitives_keep_keys tree_10_5_20_15 Hn)
    as (H1 & H2 & H3 & H4 & H5 & H6).
  split; [exact Hn|]. split; [exact Hr|]. split; [exact Hl|].
  split; [exact (H1 Hr)|]. split; [exact (H2 Hl)|].
  split; [exact H3|]. split; [exact H4|]. split; [exact H5|exact H6].
Defined.

Lemma path_blacks_toggle_red t :
  IsRed t = true ->
  path_blacks (toggle t) = map S (path_blacks t).
Proof.
  destruct t as [|[] l x r]; simpl; try discriminate. intros _.
  now rewrite map_id.
Qed.

(** X11. On the shapes where the code applies them, the rotations and the
    colour flip leave the number of black nodes on every root-to-null path
    as it is: [RotateLeft] when the right child is red, [RotateRight] when
    the left child is red, [ColorFlip] on a black node with two red
    children. *)
Theorem primitives_keep_black_paths t :
  (IsRed (pRight t) = true -> path_blacks (RotateLeft t) = path_blacks t) /\
  (IsRed (pLeft t) = true -> path_blacks (RotateRight t) = path_blacks t) /\
  (IsRed t = false -> IsRed (pLeft t) = true -> IsRed (pRight t) = true ->
   path_blacks (ColorFlip t) = path_blacks t).
Proof.
  split; [|split].
  - destruct t as [|c l x [|[] rl rx rr]]; simpl; try discriminate. intros _.
    rewrite !map_id. now rewrite <- app_assoc.
  - destruct t as [|c [|[] ll lx lr] x r]; simpl; try discriminate. intros _.
    rewrite !map_id. now rewrite <- app_assoc.
  - destruct t as [|[] l x r]; simpl; try discriminate. intros _ El Er.
    rewrite (path_blacks_toggle_red l El), (path_blacks_toggle_red r Er).
    now rewrite map_id, map_app.
Qed.

Lemma primitives_keep_black_paths_witness :
  let t := Node false (Node true nullptr (mkRef 1) nullptr) (mkRef 2)
             (Node true nullptr (mkRef 3) nullptr) in
  (IsRed (pRight t) = true /\ path_blacks (RotateLeft t) = path_blacks t) /\
  (IsRed (pLeft t) = true /\ path_blacks (RotateRight t) = path_blacks t) /\
  (IsRed t = false /\ IsRed (pLeft t) = true /\ IsRed (pRight t) = true /\
   path_blacks (ColorFlip t) = path_blacks t).
Proof.
  intros t.
  destruct (primitives_keep_black_paths t) as (H1 & H2 & H3).
  split; [split; [reflexivity|exact (H1 eq_refl)]|].
  split; [split; [reflexivity|exact (H2 eq_refl)]|].
  split; [reflexivity|]. split; [reflexivity|]. split; [reflexivity|].
  exact (H3 eq_refl eq_refl eq_refl).
Defined.

(** ** [FindMin] *)

Lemma FindMin_subtree t : subtree (FindMin t) t.
Proof.
  induction t as [|c l IHl x r _]; [now left|].
  simpl. destruct l as [|lc ll lx lr]; simpl; [now left|].
  right. left. exact IHl.
Qed.

Lemma FindMin_no_left t : pLeft (FindMin t) = nullptr.
Proof.
  induction t as [|c l IHl x r _]; [reflexivity|].
  simpl. destruct l as [|lc ll lx lr]; [reflexivity|exact IHl].
Qed.

(** X12. On a non-empty search tree [FindMin] returns a node of the tree
    that has no left child and bears the least key of the tree. *)
Theorem FindMin_least t :
  t <> nullptr -> BST t ->
  subtree (FindMin t) t /\ FindMin t <> nullptr /\
  pLeft (FindMin t) = nullptr /\
  In (Key (Ref (FindMin t))) (inorder t) /\
  forall k, In k (inorder t) -> Key (Ref (FindMin t)) <= k.
Proof.
  intros Hn Hb. apply BST_sorted in Hb.
  pose proof (FindMin_key t Hn) as Hk.
  split; [apply FindMin_subtree|].
  split.
  { clear - Hn. induction t as [|c l IHl x r _]; [congruence|].
    simpl. destruct l; [discriminate|]. apply IHl. discriminate. }
  split; [apply FindMin_no_left|].
  split; [rewrite Hk; now left|].
  intros k Hin. rewrite Hk in Hin, Hb.
  destruct Hin as [<-|Hin]; [lia|].
  inversion Hb as [|? ? _ Hf]; subst. rewrite Forall_forall in Hf.
  apply Hf in Hin. lia.
Qed.

Lemma FindMin_least_witness :
  tree_10_5_20_15 <> nullptr /\ BST tree_10_5_20_15 /\
  subtree (FindMin tree_10_5_20_15) tree_10_5_20_15 /\
  FindMin tree_10_5_20_15 <> nullptr /\
  pLeft (FindMin tree_10_5_20_15) = nullptr /\
  In (Key (Ref (FindMin tree_10_5_20_15))) (inorder tree_10_5_20_15) /\
  forall k, In k (inorder tree_10_5_20_15) ->
            Key (Ref (FindMin tree_10_5_20_15)) <= k.
Proof.
  assert (Hn : tree_10_5_20_15 <> nullptr) by discriminate.
  assert (Hb : BST tree_10_5_20_15).
  { simpl. repeat split; repeat constructor. }
  split; [exact Hn|]. split; [exact Hb|].
  exact (FindMin_least tree_10_5_20_15 Hn Hb).
Defined.

(** ** What [Traverse] prints *)

Lemma last_key_In t d : t <> nullptr -> In (last_key t d) (inorder t).
Proof.
  revert d. induction t as [|c l _ x r IHr]; intros d Hn; [congruence|].
  simpl. apply in_or_app. right.
  destruct r as [|rc rl rx rr]; [now left|].
  right. apply IHr. discriminate.
Qed.

Lemma FindMin_In t : t <> nullptr -> In (Key (Ref (FindMin t))) (inorder t).
Proof.
  intros Hn. pose proof (FindMin_key t Hn) as Hk.
  set (k := Key (Ref (FindMin t))) in *. rewrite Hk. now left.
Qed.

Lemma TraverseRec_sorted t : forall prev,
  t <> nullptr -> sorted (inorder t) ->
  TraverseRec t prev =
  ((if prev <? Key (Ref (FindMin t)) then [] else [Warning]) ++
   map (fun n => Visit (fst n) (snd n)) (inorder_nodes t),
   last_key t prev).
Proof.
  induction t as [|c l IHl x r IHr]; intros prev Hn Hs; [congruence|].
  destruct (sorted_node _ _ _ _ Hs) as (Hsl & Hsr & Hlx & Hxr).
  rewrite Forall_forall in Hlx, Hxr.
  assert (Hright :
    (if negb (is_null r) then TraverseRec r (Key x) else ([], Key x)) =
    (map (fun n => Visit (fst n) (snd n)) (inorder_nodes r), last_key r (Key x))).
  { destruct r as [|rc rl rx rr]; [reflexivity|].
    cbn [is_null negb]. rewrite IHr by (auto; discriminate).
    assert (Hlt : Key x < Key (Ref (FindMin (Node rc rl rx rr)))).
    { apply Hxr, FindMin_In. discriminate. }
    apply N.ltb_lt in Hlt. now rewrite Hlt. }
  cbn [TraverseRec].
  fold (TraverseRec l prev). fold (TraverseRec r (Key x)).
  destruct l as [|lc ll lx lr].
  - cbn [is_null negb FindMin Ref inorder_nodes app last_key].
    rewrite Hright. cbn [last_key].
    destruct (prev <? Key x); cbn [negb app]; rewrite ?app_nil_l; reflexivity.
  - cbn [is_null negb]. rewrite IHl by (auto; discriminate).
    assert (Hlt : last_key (Node lc ll lx lr) prev < Key x).
    { apply Hlx, last_key_In. discriminate. }
    apply N.ltb_lt in Hlt. rewrite Hlt. cbn [negb].
    rewrite Hright.
    change (FindMin (Node c (Node lc ll lx lr) x r))
      with (FindMin (Node lc ll lx lr)).
    cbn [inorder_nodes last_key]. f_equal.
    rewrite !map_app. cbn [map fst snd].
    rewrite ?map_app. cbn [map fst snd].
    rewrite <- !app_assoc. reflexivity.
Qed.

Lemma sorted_zero_first t :
  t <> nullptr -> sorted (inorder t) ->
  (In 0 (inorder t) <-> Key (Ref (FindMin t)) = 0).
Proof.
  intros Hn Hs. pose proof (FindMin_key t Hn) as Hk.
  split.
  - intros Hin. rewrite Hk in Hin, Hs.
    destruct Hin as [E|Hin]; [exact E|].
    inversion Hs as [|? ? _ Hf]; subst. rewrite Forall_forall in Hf.
    apply Hf in Hin. lia.
  - intros E. rewrite <- E. now apply FindMin_In.
Qed.

Lemma Traverse_output t :
  sorted (inorder t) ->
  Traverse t =
  (if in_dec N.eq_dec 0 (inorder t) then [Warning] else []) ++
  map (fun n => Visit (fst n) (snd n)) (inorder_nodes t).
Proof.
  intros Hs. unfold Traverse.
  destruct t as [|c l x r] eqn:Et.
  { simpl. now destruct (in_dec N.eq_dec 0 []). }
  rewrite <- Et in *. assert (Hn : t <> nullptr) by (rewrite Et; discriminate).
  replace (negb (is_null t)) with true by (rewrite Et; reflexivity).
  rewrite (TraverseRec_sorted t 0 Hn Hs). cbn [fst].
  pose proof (sorted_zero_first t Hn Hs) as Hz.
  destruct (N.ltb_spec 0 (Key (Ref (FindMin t)))) as [Hlt|Hge];
    destruct (in_dec N.eq_dec 0 (inorder t)) as [Hin|Hnin]; try reflexivity.
  - apply Hz in Hin. lia.
  - exfalso. apply Hnin, Hz. lia.
Qed.

(** X13. On the trees of the container [Traverse] prints each node once, in
    ascending order of the keys, with its colour; the only message it can
    print beside them is one warning, at the start, and it prints it exactly
    when the key 0 is in the tree (the check compares the smallest key with
    the initial value 0 of [prev]). *)
Theorem Traverse_prints_nodes_and_warns_on_zero t :
  reachable t ->
  Traverse t =
  (if in_dec N.eq_dec 0 (inorder t) then [Warning] else []) ++
  map (fun n => Visit (fst n) (snd n)) (inorder_nodes t).
Proof.
  intros Hr. apply reachable_Valid in Hr. apply Traverse_output. apply Hr.
Qed.

Lemma Traverse_prints_nodes_and_warns_on_zero_witness :
  let t := Node false (Node true nullptr (mkRef 0) nullptr) (mkRef 4) nullptr in
  reachable t /\
  Traverse t =
  (if in_dec N.eq_dec 0 (inorder t) then [Warning] else []) ++
  map (fun n => Visit (fst n) (snd n)) (inorder_nodes t).
Proof.
  intros t.
  assert (H : reachable t).
  { exists [OpInsert (mkRef 4); OpInsert (mkRef 0)]. reflexivity. }
  split; [exact H|].
  exact (Traverse_prints_nodes_and_warns_on_zero t H).
Defined.

(** ** [DeleteMin] *)

(** X14. On the two shapes on which [DeleteRec] calls it (a red node, or a
    black node with a red left child, of a 2-3 subtree of black height [n])
    [DeleteMin] removes the node found by [FindMin] and no other, and
    returns a 2-3 subtree of the same black height, black-rooted if the
    node was black. *)
Theorem DeleteMin_removes_minimum t n :
  red_node t n \/ black_3node t n ->
  inorder t = Key (Ref (FindMin t)) :: inorder (DeleteMin t) /\
  llrb (DeleteMin t) n /\
  (IsRed t = false -> IsRed (DeleteMin t) = false).
Proof.
  intros H. destruct (DeleteMin_spec t n H) as (Hl & Hc & Hi).
  split; [|split; assumption].
  rewrite Hi. apply FindMin_key.
  destruct H as [[E _]|(_ & E & _)]; destruct t; simpl in E; discriminate.
Qed.

Lemma DeleteMin_removes_minimum_witness :
  let t := Node false
             (Node true (Node false nullptr (mkRef 1) nullptr) (mkRef 2)
                (Node false nullptr (mkRef 3) nullptr))
             (mkRef 4) (Node false nullptr (mkRef 5) nullptr) in
  (red_node t 2 \/ black_3node t 2) /\
  inorder t = Key (Ref (FindMin t)) :: inorder (DeleteMin t) /\
  llrb (DeleteMin t) 2 /\
  (IsRed t = false -> IsRed (DeleteMin t) = false).
Proof.
  intros t.
  assert (H : red_node t 2 \/ black_3node t 2).
  { right. split; [reflexivity|]. split; [reflexivity|].
    simpl. repeat split; reflexivity. }
  split; [exact H|].
  exact (DeleteMin_removes_minimum t 2 H).
Defined.

(** ** [FindParent] and the report of [Insert] *)

(** X15. On a tree of the container that holds the key elsewhere than at
    its root, [FindParent] dereferences no null pointer and returns a node
    of the tree one of whose children bears the key. *)
Theorem FindParent_returns_parent t ref :
  reachable t -> In (Key ref) (inorder t) -> Key (Ref t) <> Key ref ->
  exists p, FindParent t ref = Some p /\ subtree p t /\ parent_of p ref.
Proof.
  intros Hr Hin Hne. apply reachable_Valid in Hr.
  destruct Hr as (Hs & _ & n & H).
  destruct (FindParent_found ref t n H Hs Hin Hne) as (p & Hp & _).
  exists p. split; [exact Hp|]. now apply FindParent_sound.
Qed.

Lemma FindParent_returns_parent_witness :
  reachable tree_10_5_20_15 /\
  In (Key (mkRef 15)) (inorder tree_10_5_20_15) /\
  Key (Ref tree_10_5_20_15) <> Key (mkRef 15) /\
  exists p, FindParent tree_10_5_20_15 (mkRef 15) = Some p /\
            subtree p tree_10_5_20_15 /\ parent_of p (mkRef 15).
Proof.
  assert (Hin : In (Key (mkRef 15)) (inorder tree_10_5_20_15)).
  { simpl. auto. }
  assert (Hne : Key (Ref tree_10_5_20_15) <> Key (mkRef 15)) by discriminate.
  split; [exact tree_10_5_20_15_reachable|]. split; [exact Hin|].
  split; [exact Hne|].
  exact (FindParent_returns_parent tree_10_5_20_15 (mkRef 15)
           tree_10_5_20_15_reachable Hin Hne).
Defined.

(** X16. What [Insert] prints is right: the key printed as the newest is
    the key inserted; when that key is at the root nothing is printed for a
    parent and the root is printed black; otherwise the key printed for the
    parent is that of a node of the new tree one of whose children bears the
    inserted key. *)
Theorem Insert_report_is_right t ref :
  reachable t ->
  exists t' rep,
    Insert t ref = Some (t', true) /\ Insert_report t' ref = Some rep /\
    newest_key rep = Key ref /\
    (Key (Ref t') = Key ref -> rep = NoParent (Key ref) false) /\
    (Key (Ref t') <> Key ref ->
     exists p, FindParent t' ref = Some p /\ subtree p t' /\
               parent_of p ref /\ parent_key rep = Some (Key (Ref p))).
Proof.
  intros Hr. apply reachable_Valid in Hr.
  destruct (Insert_spec t ref Hr) as (t' & H & (Hs & Ec & n & Hl) & Hi).
  assert (Hin : In (Key ref) (inorder t')).
  { rewrite Hi. apply In_ins_list. now left. }
  destruct t' as [|c l x r]; [contradiction|]. simpl in Ec. subst c.
  exists (Node false l x r).
  unfold Insert_report. cbn [Ref].
  destruct (N.eqb_spec (Key x) (Key ref)) as [E|E].
  - eexists. split; [exact H|]. split; [reflexivity|].
    split; [exact E|]. split; [now rewrite E|congruence].
  - destruct (FindParent_found ref _ n Hl Hs Hin E) as (p & Hp & Hread).
    destruct (FindParent_sound ref _ p Hp) as (Hsub & Hpar).
    rewrite Hp.
    destruct p as [|pc [|lc pll plx plr] px pr]; simpl in Hread;
      try contradiction.
    destruct (N.eqb_spec (Key plx) (Key ref)) as [El|El].
    + eexists. split; [exact H|]. split; [reflexivity|].
      split; [exact El|]. split; [congruence|]. intros _.
      eexists. split; [reflexivity|]. auto.
    + destruct Hread as [?|Hpr]; [congruence|].
      destruct pr as [|rc prl prx prr]; [congruence|].
      eexists. split; [exact H|]. split; [reflexivity|].
      split.
      { simpl. destruct Hpar as [(_ & Ek)|(_ & Ek)]; simpl in Ek; congruence. }
      split; [congruence|]. intros _.
      eexists. split; [reflexivity|]. auto.
Qed.

Lemma Insert_report_is_right_witness :
  reachable tree_10_5_20_15 /\
  exists t' rep,
    Insert tree_10_5_20_15 (mkRef 12) = Some (t', true) /\
    Insert_report t' (mkRef 12) = Some rep /\
    newest_key rep = Key (mkRef 12) /\
    (Key (Ref t') = Key (mkRef 12) -> rep = NoParent (Key (mkRef 12)) false) /\
    (Key (Ref t') <> Key (mkRef 12) ->
     exists p, FindParent t' (mkRef 12) = Some p /\ subtree p t' /\
               parent_of p (mkRef 12) /\ parent_key rep = Some (Key (Ref p))).
Proof.
  split; [exact tree_10_5_20_15_reachable|].
  exact (Insert_report_is_right tree_10_5_20_15 (mkRef 12)
           tree_10_5_20_15_reachable).
Defined.

(** ** [InsertRec] and [Delete] on trees of any shape *)

(** X17. Whatever the tree, also one that is not a search tree or is badly
    coloured, [InsertRec] returns a non-null tree whose keys are the keys of
    the tree and the key inserted: it loses no key and adds no other. *)
Theorem InsertRec_keys_any_tree t ref :
  InsertRec t ref <> nullptr /\
  forall k, In k (inorder (InsertRec t ref)) <-> k = Key ref \/ In k (inorder t).
Proof.
  split; [apply InsertRec_nonnull|].
  induction t as [|c l IHl x r IHr]; intros k.
  - simpl. intuition congruence.
  - rewrite InsertRec_Node, inorder_InsertRec_fix.
    destruct (N.eqb_spec (Key ref) (Key x)) as [E|E].
    + simpl. rewrite !in_app_iff. simpl. rewrite E. intuition congruence.
    + destruct (Key ref <? Key x); simpl; rewrite !in_app_iff; simpl;
        rewrite ?IHl, ?IHr; tauto.
Qed.

(** X18. On any search tree, whatever its colours and its balance,
    [InsertRec] returns a search tree: its in-order keys are those of the
    tree with the key put at its place. *)
Theorem InsertRec_keeps_search_order t ref :
  BST t ->
  BST (InsertRec t ref) /\
  inorder (InsertRec t ref) = ins_list (Key ref) (inorder t).
Proof.
  intros Hb. apply BST_sorted in Hb.
  pose proof (inorder_InsertRec ref t Hb) as Hi.
  split; [|exact Hi].
  apply BST_sorted. rewrite Hi. now apply sorted_ins_list.
Qed.

Lemma InsertRec_keeps_search_order_witness :
  let t := Node true nullptr (mkRef 1)
             (Node true nullptr (mkRef 2) (Node true nullptr (mkRef 3) nullptr)) in
  BST t /\
  BST (InsertRec t (mkRef 4)) /\
  inorder (InsertRec t (mkRef 4)) = ins_list (Key (mkRef 4)) (inorder t).
Proof.
  intros t.
  assert (Hb : BST t).
  { simpl. repeat split; repeat constructor. }
  split; [exact Hb|].
  exact (InsertRec_keeps_search_order t (mkRef 4) Hb).
Defined.

Lemma In_set_pLeft p o k :
  (In k (inorder o) -> In k (inorder (pLeft p))) ->
  In k (inorder (set_pLeft p o)) -> In k (inorder p).
Proof.
  destruct p as [|c l x r]; simpl; [tauto|].
  rewrite !in_app_iff. simpl. tauto.
Qed.

Lemma In_set_pRight p o k :
  (In k (inorder o) -> In k (inorder (pRight p))) ->
  In k (inorder (set_pRight p o)) -> In k (inorder p).
Proof.
  destruct p as [|c l x r]; simpl; [tauto|].
  rewrite !in_app_iff. simpl. tauto.
Qed.

Lemma In_pLeft p k : In k (inorder (pLeft p)) -> In k (inorder p).
Proof.
  destruct p as [|c l x r]; simpl; [tauto|]. rewrite in_app_iff. tauto.
Qed.

Lemma In_pRight p k : In k (inorder (pRight p)) -> In k (inorder p).
Proof.
  destruct p as [|c l x r]; simpl; [tauto|]. rewrite in_app_iff. simpl. tauto.
Qed.

Lemma DeleteMin_fuel_incl f : forall p k,
  In k (inorder (DeleteMin_fuel f p)) -> In k (inorder p).
Proof.
  induction f as [|f IH]; intros p k; [simpl; tauto|].
  rewrite DeleteMin_fuel_S.
  destruct (is_null (pLeft p)); [simpl; tauto|]. cbv zeta.
  fold (left_descent p). rewrite inorder_FixUp.
  intros H. rewrite <- (inorder_left_descent p).
  revert H. apply In_set_pLeft. apply IH.
Qed.

Lemma DeleteRec_fuel_incl key f : forall p k,
  In k (inorder (DeleteRec_fuel f p key)) -> In k (inorder p).
Proof.
  induction f as [|f IH]; intros p k; [simpl; tauto|].
  rewrite DeleteRec_fuel_S.
  destruct (key <? Key (Ref p)).
  - destruct (negb (is_null (pLeft p))); [|now rewrite inorder_FixUp].
    cbv zeta. fold (left_descent p). rewrite inorder_FixUp.
    intros H. rewrite <- (inorder_left_descent p).
    revert H. apply In_set_pLeft. apply IH.
  - cbv zeta. fold (right_turn p).
    assert (E : right_descent p =
                if negb (IsRed (pRight (right_turn p))) &&
                   negb (IsRed (pLeft (pRight (right_turn p))))
                then MoveRedRight (right_turn p) else right_turn p)
      by reflexivity.
    rewrite <- E. clear E.
    destruct ((key =? Key (Ref (right_turn p))) && is_null (pRight (right_turn p)));
      [simpl; tauto|].
    destruct (is_null (pRight (right_turn p))) eqn:En; cbn [negb].
    { rewrite inorder_FixUp, inorder_right_turn. tauto. }
    assert (Hnn : pRight (right_descent p) <> nullptr).
    { apply right_descent_pRight.
      destruct (pRight (right_turn p)); [discriminate|discriminate]. }
    rewrite inorder_FixUp. rewrite <- (inorder_right_descent p).
    destruct (key =? Key (Ref (right_descent p))).
    + destruct (right_descent p) as [|c l x r]; [simpl; tauto|].
      cbn [set_Ref set_pRight pRight inorder] in *.
      rewrite !in_app_iff. simpl.
      intros [H|[H|H]]; [tauto| |].
      * right. right. rewrite <- H. now apply FindMin_In.
      * right. right. revert H. apply DeleteMin_fuel_incl.
    + apply In_set_pRight. apply IH.
Qed.

(** X19. Whatever the tree and the key, also on a tree that is not a search
    tree or is badly coloured, [Delete] invents no key: every key of the
    tree it returns was in the tree. *)
Theorem Delete_adds_no_key t key k :
  In k (inorder (Delete t key)) -> In k (inorder t).
Proof.
  unfold Delete. destruct (negb (is_null t)); [|tauto].
  destruct (negb (is_null (DeleteRec t key)));
    rewrite ?inorder_set_black; apply DeleteRec_fuel_incl.
Qed.

Lemma Delete_adds_no_key_witness :
  let t := Node true (Node true nullptr (mkRef 9) nullptr) (mkRef 3)
             (Node true nullptr (mkRef 1) nullptr) in
  In 9 (inorder (Delete t 3)) /\ In 9 (inorder t).
Proof.
  intros t.
  assert (H : In 9 (inorder (Delete t 3))) by (vm_compute; auto).
  split; [exact H|].
  exact (Delete_adds_no_key t 3 9 H).
Defined.

(** ** [Max] and [Min] *)

(** X20. [Max] returns the greater of its two arguments and [Min] the
    lesser; with equal arguments both return that value. *)
Theorem Max_Min_are_max_min left right :
  Max left right = N.max left right /\ Min left right = N.min left right.
Proof.
  unfold Max, Min. split.
  - destruct (N.ltb_spec right left); [now rewrite N.max_l by lia|].
    now rewrite N.max_r by lia.
  - destruct (N.ltb_spec left right); [now rewrite N.min_l by lia|].
    now rewrite N.min_r by lia.
Qed.

(** ** The driver (Source.cpp) *)

Lemma insert_each_run target : forall tree,
  insert_each target tree = run (map OpInsert target) tree.
Proof.
  induction target as [|ref target IH]; intros tree; [reflexivity|].
  simpl. destruct (Insert tree ref) as [[root b]|]; [apply IH|reflexivity].
Qed.

Lemma live_keys_inserts target : forall s k,
  In k (live_keys (map OpInsert target) s) <->
  In k (map Key target) \/ In k s.
Proof.
  induction target as [|ref target IH]; intros s k; simpl; [tauto|].
  rewrite IH. simpl. tauto.
Qed.

Lemma no_Warning_in_visits (l : list (bool * N)) :
  ~ In Warning (map (fun n => Visit (fst n) (snd n)) l).
Proof.
  intros H. apply in_map_iff in H. destruct H as (n & E & _). discriminate.
Qed.

(** X21. [loadLLRBTree] on an empty container never dereferences a null
    pointer and leaves a tree that satisfies the invariants and holds the
    keys of the [SIZE] elements of the array, duplicates counted once. *)
Theorem loadLLRBTree_loads_the_keys target :
  length target = SIZE ->
  exists t, loadLLRBTree target nullptr = Some t /\ Invariants t /\
            StronglySorted N.lt (inorder t) /\
            (forall k, In k (inorder t) <-> In k (map Key target)).
Proof.
  intros Hlen. unfold loadLLRBTree.
  rewrite firstn_all2 by (rewrite Hlen; apply Nat.le_refl).
  rewrite insert_each_run.
  destruct (run_Valid (map OpInsert target) nullptr [] Valid_nullptr)
    as (t & H & Hv & Hk); [reflexivity|].
  exists t. split; [exact H|]. split; [now apply Valid_Invariants|].
  split; [apply Hv|].
  intros k. rewrite Hk, live_keys_inserts. simpl. tauto.
Qed.

Lemma loadLLRBTree_loads_the_keys_witness :
  let target := map mkRef [42; 68; 135; 101; 170; 125; 79; 159; 163; 65] in
  length target = SIZE /\
  exists t, loadLLRBTree target nullptr = Some t /\ Invariants t /\
            StronglySorted N.lt (inorder t) /\
            (forall k, In k (inorder t) <-> In k (map Key target)).
Proof.
  intros target.
  assert (H : length target = SIZE) by reflexivity.
  split; [exact H|].
  exact (loadLLRBTree_loads_the_keys target H).
Defined.

(** X22. The traversal of [main]: for an array of [SIZE] keys all at least
    1 (as [loadArr] makes them) the program loads the tree, deletes the key
    of the 4th element and prints, without any warning, the other keys of
    the array in strictly ascending order, each once; the key of the 4th
    element is not printed, even if the array held it more than once. *)
Theorem main_prints_the_other_keys treeArr :
  length treeArr = SIZE -> Forall (fun ref => 1 <= Key ref) treeArr ->
  exists out,
    main_traversal treeArr = Some out /\
    ~ In Warning out /\
    StronglySorted N.lt (emitted_keys out) /\
    (forall k, In k (emitted_keys out) <->
               In k (map Key treeArr) /\ k <> Key (nth 3 treeArr (mkRef 0))).
Proof.
  intros Hlen Hpos. unfold main_traversal, loadLLRBTree.
  rewrite firstn_all2 by (rewrite Hlen; apply Nat.le_refl).
  rewrite insert_each_run.
  destruct (run_Valid (map OpInsert treeArr) nullptr [] Valid_nullptr)
    as (t & -> & Hv & Hk); [reflexivity|].
  set (key := Key (nth 3 treeArr (mkRef 0))).
  destruct (Delete_spec t key Hv) as (Hv' & Hi).
  assert (Hkeys : forall k, In k (inorder (Delete t key)) <->
                            In k (map Key treeArr) /\ k <> key).
  { intros k. rewrite Hi, In_del_list, Hk, live_keys_inserts. simpl. tauto. }
  eexists. split; [reflexivity|]. cbv zeta.
  split; [|split].
  - rewrite Traverse_output by apply Hv'.
    destruct (in_dec N.eq_dec 0 (inorder (Delete t key))) as [H0|_].
    + exfalso. apply Hkeys in H0. destruct H0 as (H0 & _).
      apply in_map_iff in H0. destruct H0 as (ref & E & Hin).
      rewrite Forall_forall in Hpos. apply Hpos in Hin. lia.
    + apply no_Warning_in_visits.
  - rewrite Traverse_keys. apply Hv'.
  - intros k. rewrite Traverse_keys. apply Hkeys.
Qed.

Lemma main_prints_the_other_keys_witness :
  let treeArr := map mkRef [42; 68; 135; 101; 170; 125; 79; 159; 163; 65] in
  length treeArr = SIZE /\ Forall (fun ref => 1 <= Key ref) treeArr /\
  exists out,
    main_traversal treeArr = Some out /\
    ~ In Warning out /\
    StronglySorted N.lt (emitted_keys out) /\
    (forall k, In k (emitted_keys out) <->
               In k (map Key treeArr) /\ k <> Key (nth 3 treeArr (mkRef 0))).
Proof.
  intros treeArr.
  assert (H : length treeArr = SIZE) by reflexivity.
  assert (Hp : Forall (fun ref => 1 <= Key ref) treeArr).
  { repeat constructor; simpl; lia. }
  split; [exact H|]. split; [exact Hp|].
  exact (main_prints_the_other_keys treeArr H Hp).
Defined.
